(** * A shallow embedding of the CSP backtracking framework ([csp.py],
      [queens.py], [testCsp.py]) and its properties. *)

From Stdlib Require Import List Bool ZArith Lia Permutation Classical_Prop.
Import ListNotations.

(** ** Decidable equality on variables (Python's [==] / hashing on keys). *)

Class EqDecV (V : Type) := eq_decV : forall x y : V, {x = y} + {x <> y}.

#[export] Instance EqDecV_Z : EqDecV Z := Z.eq_dec.

(** ** Python exceptions raised by the code, and results that may raise. *)

Inductive exn := LookupError | IndexError | KeyError.

Inductive res (A : Type) := Ok (x : A) | Raise (e : exn).
Arguments Ok {A} x.
Arguments Raise {A} e.

Section CSPModel.

Context {V D : Type} `{EqDecV V}.

(** ** Python dicts as association lists in insertion order. *)

Fixpoint lookup {A} (d : list (V * A)) (k : V) : option A :=
  match d with
  | [] => None
  | (k', x) :: d' => if eq_decV k k' then Some x else lookup d' k
  end.

(** [k in d] *)
Definition mem {A} (k : V) (d : list (V * A)) : bool :=
  match lookup d k with Some _ => true | None => false end.

(** [v in l] for a Python list. *)
Fixpoint in_list (k : V) (l : list V) : bool :=
  match l with
  | [] => false
  | k' :: l' => if eq_decV k k' then true else in_list k l'
  end.

(** [d[k] = x]: overwrites the entry in place, or appends a new one. *)
Fixpoint dict_set {A} (d : list (V * A)) (k : V) (x : A) : list (V * A) :=
  match d with
  | [] => [(k, x)]
  | (k', y) :: d' =>
      if eq_decV k k' then (k', x) :: d' else (k', y) :: dict_set d' k x
  end.

Definition keys {A} (d : list (V * A)) : list V := map fst d.

(** [Dict[V, D]] *)
Definition assignment := list (V * D).

(** [class Constraint]: the variables it is declared over and the
    overridden [satisfied] method. *)
Record Constraint := mkConstraint {
  cvars : list V;
  satisfied : assignment -> bool
}.

(** [class CSP]: [self.variables], [self.domains], [self.constraints]. *)
Record CSP := mkCSP {
  variables : list V;
  domains : list (V * list D);
  constraints : list (V * list Constraint)
}.

(** [CSP.__init__]: [self.constraints[variable] = []] and then the domain
    check, for each variable in order. *)
Fixpoint init_loop (vars : list V) (doms : list (V * list D))
    (reg : list (V * list Constraint)) : res (list (V * list Constraint)) :=
  match vars with
  | [] => Ok reg
  | v :: vs =>
      let reg' := dict_set reg v [] in
      if mem v doms then init_loop vs doms reg' else Raise LookupError
  end.

Definition csp_init (vars : list V) (doms : list (V * list D)) : res CSP :=
  match init_loop vars doms [] with
  | Ok reg => Ok (mkCSP vars doms reg)
  | Raise e => Raise e
  end.

(** [CSP.add_constraint]: the object is mutated in place, so the state
    after the call is returned together with the outcome, also when the
    call raises. *)
Fixpoint add_loop (c : Constraint) (vs : list V) (s : CSP) : CSP * res unit :=
  match vs with
  | [] => (s, Ok tt)
  | v :: vs' =>
      if in_list v (variables s) then
        match lookup (constraints s) v with
        | Some cs =>
            add_loop c vs'
              (mkCSP (variables s) (domains s)
                 (dict_set (constraints s) v (cs ++ [c])))
        | None => (s, Raise KeyError)
        end
      else (s, Raise LookupError)
  end.

Definition add_constraint (c : Constraint) (s : CSP) : CSP * res unit :=
  add_loop c (cvars c) s.

(** [CSP.consistent] (csp.py): the loop over [self.constraints[variable]]
    with an early [return False]; both [print]s read
    [assignment[variable]]. *)
Fixpoint consistent_loop (variable : V) (cs : list Constraint)
    (a : assignment) : res bool :=
  match cs with
  | [] => match lookup a variable with Some _ => Ok true | None => Raise KeyError end
  | c :: cs' =>
      if satisfied c a then consistent_loop variable cs' a
      else match lookup a variable with Some _ => Ok false | None => Raise KeyError end
  end.

Definition consistent (s : CSP) (variable : V) (a : assignment) : res bool :=
  match lookup (constraints s) variable with
  | Some cs => consistent_loop variable cs a
  | None => Raise KeyError
  end.

(** [[v for v in self.variables if v not in assignment]] *)
Definition unassigned (s : CSP) (a : assignment) : list V :=
  filter (fun v => negb (mem v a)) (variables s).

(** The [for value in self.domains[first]] loop of
    [CSP.backtracking_search] (csp.py): [rec] is the recursive call. *)
Fixpoint search_values (s : CSP) (rec : assignment -> option (res (option assignment)))
    (a : assignment) (first : V) (values : list D)
    : option (res (option assignment)) :=
  match values with
  | [] => Some (Ok None)
  | value :: rest =>
      let local_assignment := dict_set a first value in
      match consistent s first local_assignment with
      | Raise e => Some (Raise e)
      | Ok false => search_values s rec a first rest
      | Ok true =>
          match rec local_assignment with
          | None => None
          | Some (Ok (Some result)) => Some (Ok (Some result))
          | Some (Ok None) => search_values s rec a first rest
          | Some (Raise e) => Some (Raise e)
          end
      end
  end.

(** [CSP.backtracking_search] (csp.py), on assignments as values: each
    frame works on [assignment.copy()] extended by one binding.  The
    recursion is bounded by a fuel argument; [None] means the fuel ran out,
    which [bt_fuel_enough] below shows never happens for the fuel used by
    [backtracking_search]. *)
Fixpoint bt (s : CSP) (fuel : nat) (a : assignment)
    : option (res (option assignment)) :=
  match fuel with
  | 0 => None
  | S n =>
      if Nat.eqb (length a) (length (variables s)) then Some (Ok (Some a))
      else
        match unassigned s a with
        | [] => Some (Raise IndexError)
        | first :: _ =>
            match lookup (domains s) first with
            | None => Some (Raise KeyError)
            | Some dom => search_values s (bt s n) a first dom
            end
        end
  end.

Definition backtracking_search (s : CSP) (a : assignment) : res (option assignment) :=
  match bt s (S (length (variables s))) a with
  | Some r => r
  | None => Ok None
  end.

End CSPModel.

(** ** The store-passing view of [CSP.backtracking_search].

    Python dicts are mutable objects: a caller's assignment (in particular
    the shared default argument [{}]) is an object in the store, and each
    frame calls [assignment.copy()] and then [local_assignment[first] =
    value] on the copy.  The store is a list of dict objects indexed by
    location; [copy] allocates a fresh object at the end. *)

Section HeapModel.

Context {V D : Type} `{EqDecV V}.

Definition loc := nat.
Definition heap := list (@assignment V D).

Definition deref (h : heap) (l : loc) : assignment := nth l h [].

Fixpoint upd (h : heap) (l : loc) (x : assignment) : heap :=
  match h, l with
  | [], _ => []
  | _ :: h', 0 => x :: h'
  | y :: h', S l' => y :: upd h' l' x
  end.

(** [assignment.copy()] *)
Definition dict_copy (h : heap) (l : loc) : heap * loc :=
  (h ++ [deref h l], length h).

(** [d[k] = x] on the object at [l] *)
Definition heap_set (h : heap) (l : loc) (k : V) (x : D) : heap :=
  upd h l (dict_set (deref h l) k x).

(** The [for value in self.domains[first]] loop, threading the store. *)
Fixpoint search_values_h (s : CSP) (rec : heap -> loc -> option (heap * res (option loc)))
    (l : loc) (first : V) (values : list D) (h0 : heap)
    : option (heap * res (option loc)) :=
  match values with
  | [] => Some (h0, Ok None)
  | value :: rest =>
      let '(h1, local_assignment) := dict_copy h0 l in
      let h2 := heap_set h1 local_assignment first value in
      match consistent s first (deref h2 local_assignment) with
      | Raise e => Some (h2, Raise e)
      | Ok false => search_values_h s rec l first rest h2
      | Ok true =>
          match rec h2 local_assignment with
          | None => None
          | Some (h3, Ok (Some result)) => Some (h3, Ok (Some result))
          | Some (h3, Ok None) => search_values_h s rec l first rest h3
          | Some (h3, Raise e) => Some (h3, Raise e)
          end
      end
  end.

Fixpoint bt_h (s : CSP) (fuel : nat) (h : heap) (l : loc)
    : option (heap * res (option loc)) :=
  match fuel with
  | 0 => None
  | S n =>
      let a := deref h l in
      if Nat.eqb (length a) (length (variables s)) then Some (h, Ok (Some l))
      else
        match unassigned s a with
        | [] => Some (h, Raise IndexError)
        | first :: _ =>
            match lookup (domains s) first with
            | None => Some (h, Raise KeyError)
            | Some dom => search_values_h s (bt_h s n) l first dom h
            end
        end
  end.

Definition backtracking_search_h (s : CSP) (h : heap) (l : loc)
    : heap * res (option loc) :=
  match bt_h s (S (length (variables s))) h l with
  | Some r => r
  | None => (h, Ok None)
  end.

(** The value a result location denotes in a store. *)
Definition deref_res (h : heap) (r : res (option loc)) : res (option assignment) :=
  match r with
  | Ok (Some l) => Ok (Some (deref h l))
  | Ok None => Ok None
  | Raise e => Raise e
  end.

End HeapModel.

(** ** [CSP.backtracking_search_2] (testCsp.py): picks [unassigned[1]] and
    recurses into [backtracking_search].  (The [consistent] of testCsp.py
    differs from csp.py's only by not printing [assignment[variable]],
    which is always present here.) *)

Section Search2.

Context {V D : Type} `{EqDecV V}.

Definition backtracking_search_2 (s : CSP) (a : @assignment V D)
    : res (option assignment) :=
  if Nat.eqb (length a) (length (variables s)) then Ok (Some a)
  else
    match nth_error (unassigned s a) 1 with
    | None => Raise IndexError
    | Some first =>
        match lookup (domains s) first with
        | None => Raise KeyError
        | Some dom =>
            (fix loop (values : list D) : res (option assignment) :=
               match values with
               | [] => Ok None
               | value :: rest =>
                   let local_assignment := dict_set a first value in
                   match consistent s first local_assignment with
                   | Raise e => Raise e
                   | Ok false => loop rest
                   | Ok true =>
                       match backtracking_search s local_assignment with
                       | Ok (Some result) => Ok (Some result)
                       | Ok None => loop rest
                       | Raise e => Raise e
                       end
                   end
               end) dom
        end
    end.

End Search2.

(** ** [CSP.consistent] and [CSP.backtracking_search] as written in
    testCsp.py.  This [consistent] prints the whole assignment instead of
    [assignment[variable]]; this [backtracking_search] calls [consistent]
    twice per value, once inside a [print] and once in the [if]. *)

Section TestCspModel.

Context {V D : Type} `{EqDecV V}.

Fixpoint consistent_t_loop (cs : list (@Constraint V D)) (a : @assignment V D) : bool :=
  match cs with
  | [] => true
  | c :: cs' => if satisfied c a then consistent_t_loop cs' a else false
  end.

Definition consistent_t (s : @CSP V D) (variable : V) (a : @assignment V D) : res bool :=
  match lookup (constraints s) variable with
  | Some cs => Ok (consistent_t_loop cs a)
  | None => Raise KeyError
  end.

Fixpoint search_values_t (s : @CSP V D) (rec : (@assignment V D) -> option (res (option (@assignment V D))))
    (a : @assignment V D) (first : V) (values : list D)
    : option (res (option (@assignment V D))) :=
  match values with
  | [] => Some (Ok None)
  | value :: rest =>
      let local_assignment := dict_set a first value in
      match consistent_t s first local_assignment with
      | Raise e => Some (Raise e)
      | Ok _ =>
          match consistent_t s first local_assignment with
          | Raise e => Some (Raise e)
          | Ok false => search_values_t s rec a first rest
          | Ok true =>
              match rec local_assignment with
              | None => None
              | Some (Ok (Some result)) => Some (Ok (Some result))
              | Some (Ok None) => search_values_t s rec a first rest
              | Some (Raise e) => Some (Raise e)
              end
          end
      end
  end.

Fixpoint bt_t (s : @CSP V D) (fuel : nat) (a : @assignment V D)
    : option (res (option (@assignment V D))) :=
  match fuel with
  | 0 => None
  | S n =>
      if Nat.eqb (length a) (length (variables s)) then Some (Ok (Some a))
      else
        match unassigned s a with
        | [] => Some (Raise IndexError)
        | first :: _ =>
            match lookup (domains s) first with
            | None => Some (Raise KeyError)
            | Some dom => search_values_t s (bt_t s n) a first dom
            end
        end
  end.

Definition backtracking_search_t (s : @CSP V D) (a : @assignment V D) : res (option (@assignment V D)) :=
  match bt_t s (S (length (variables s))) a with
  | Some r => r
  | None => Ok None
  end.

(** The variables of [vs] that the loop of [add_constraint] appends the
    constraint under before it stops: it stops at the first variable that
    is undeclared or has no registry entry. *)
Fixpoint add_prefix (vars : list V) (reg : list (V * list (@Constraint V D))) (vs : list V)
    : list V :=
  match vs with
  | [] => []
  | v :: vs' =>
      if in_list v vars then
        match lookup reg v with
        | Some _ => v :: add_prefix vars reg vs'
        | None => []
        end
      else []
  end.

End TestCspModel.

(** ** [QueensConstraint] (queens.py). *)

(** [range(lo, hi)] *)
Local Open Scope Z_scope.

Definition range (lo hi : Z) : list Z :=
  map (fun i => lo + Z.of_nat i) (seq 0 (Z.to_nat (hi - lo))).

Definition queens_satisfied (columns : list Z) (a : list (Z * Z)) : bool :=
  forallb (fun '(q1c, q1r) =>
    forallb (fun q2c =>
      match lookup a q2c with
      | Some q2r =>
          negb (Z.eqb q1r q2r) && negb (Z.eqb (Z.abs (q1c - q2c)) (Z.abs (q1r - q2r)))
      | None => true
      end) (range (q1c + 1) (Z.of_nat (length columns) + 1))) a.

Definition QueensConstraint (columns : list Z) : Constraint :=
  mkConstraint columns (queens_satisfied columns).

(** The demo problem of queens.py for an [n] x [n] board. *)
Local Close Scope Z_scope.

Definition queens_csp (n : nat) : res (@CSP Z Z) :=
  let columns := range 1 (Z.of_nat n + 1)%Z in
  match csp_init columns (map (fun c => (c, columns)) columns) with
  | Ok s => Ok (fst (add_constraint (QueensConstraint columns) s))
  | Raise e => Raise e
  end.

Definition solve_queens (n : nat) : res (option (list (Z * Z))) :=
  match queens_csp n with
  | Ok s => backtracking_search s []
  | Raise e => Raise e
  end.

(** ** Example problems, built the way the demo and the tests build them. *)

Definition res_default {A} (r : res A) (d : A) : A :=
  match r with Ok x => x | Raise _ => d end.

Definition empty_csp : @CSP Z Z := mkCSP [] [] [].

(** [CSP(columns, rows)] with one [QueensConstraint(columns)]. *)
Definition queens_problem (n : nat) : @CSP Z Z := res_default (queens_csp n) empty_csp.

(** A binary constraint [x != y] that tolerates absent variables. *)
Definition neq_constraint (x y : Z) : @Constraint Z Z :=
  mkConstraint [x; y] (fun a =>
    match lookup a x, lookup a y with
    | Some vx, Some vy => negb (Z.eqb vx vy)
    | _, _ => true
    end).

(** [CSP([1, 2], {1: [1, 2], 2: [1, 2]})] with [x1 != x2]. *)
Definition neq_problem : @CSP Z Z :=
  fst (add_constraint (neq_constraint 1 2)
         (res_default (csp_init [1; 2]%Z [(1, [1; 2]); (2, [1; 2])]%Z) empty_csp)).

(** A placement of [n] queens on an [n] x [n] board, one per column
    [1..n], with rows in [1..n] and no two queens attacking each other. *)
Definition queens_placement (n : nat) (sol : list (Z * Z)) : Prop :=
  Permutation (keys sol) (range 1 (Z.of_nat n + 1)) /\
  (forall c r, In (c, r) sol -> (1 <= r <= Z.of_nat n)%Z) /\
  (forall c1 r1 c2 r2, In (c1, r1) sol -> In (c2, r2) sol -> c1 <> c2 ->
     r1 <> r2 /\ Z.abs (c1 - c2) <> Z.abs (r1 - r2)).

(** ** Properties the claims are stated with. *)

Section Predicates.

Context {V D : Type} `{EqDecV V}.

(** What [CSP.__init__] establishes and [add_constraint] keeps: every
    variable has a domain and a registry entry, and the registry has no
    other keys. *)
Definition wf (s : @CSP V D) : Prop :=
  (forall v, In v (variables s) -> exists dom, lookup (domains s) v = Some dom) /\
  (forall v, In v (variables s) -> exists cs, lookup (constraints s) v = Some cs) /\
  (forall v cs, lookup (constraints s) v = Some cs -> In v (variables s)).

(** Problems built by [CSP(variables, domains)] followed by any number of
    [add_constraint] calls (whose exceptions the caller may have caught). *)
Inductive reachable : @CSP V D -> Prop :=
  | reach_init vars doms s : csp_init vars doms = Ok s -> reachable s
  | reach_add s c : reachable s -> reachable (fst (add_constraint c s)).

(** Assignments reached by the search: a dict over declared variables. *)
Definition good_assignment (s : @CSP V D) (a : @assignment V D) : Prop :=
  NoDup (keys a) /\ incl (keys a) (variables s).

(** [c] is in the registry list of [z]. *)
Definition registered_at (s : @CSP V D) (c : Constraint) (z : V) : Prop :=
  exists cs, lookup (constraints s) z = Some cs /\ In c cs.

Definition registered (s : @CSP V D) (c : Constraint) : Prop :=
  exists z, registered_at s c z.

(** Every registered constraint reads, on dicts over declared variables,
    only the bindings of the variables it is registered under. *)
Definition local_to_registration (s : @CSP V D) : Prop :=
  forall c, registered s c ->
  forall a b, good_assignment s a -> good_assignment s b ->
  (forall z, registered_at s c z -> lookup a z = lookup b z) ->
  satisfied c a = satisfied c b.

(** [a] is a sub-assignment of [b]. *)
Definition sub (a b : @assignment V D) : Prop :=
  forall k v, lookup a k = Some v -> lookup b k = Some v.

(** The constraint contract: absent variables impose no restriction, so a
    registered constraint that holds on an assignment holds on each of its
    sub-assignments. *)
Definition absent_vacuous (s : @CSP V D) : Prop :=
  forall c, registered s c ->
  forall a b, good_assignment s a -> sub a b -> satisfied c b = true -> satisfied c a = true.

(** A complete assignment (every variable bound to a value of its domain)
    satisfying every registered constraint. *)
Definition complete_solution (s : @CSP V D) (sol : assignment) : Prop :=
  (forall x, In x (variables s) ->
     exists v dom, lookup sol x = Some v /\ lookup (domains s) x = Some dom /\ In v dom) /\
  (forall c, registered s c -> satisfied c sol = true).

(** The branch step in the words of the spec: for each candidate value in
    declared domain order, build [assignment + (x -> value)], check
    [consistent(x, trial)], recurse if consistent, propagate a found
    assignment at once, and otherwise go on with the next value. *)
Fixpoint branch_in_order (s : @CSP V D) (a : assignment) (x : V) (values : list D)
    : res (option assignment) :=
  match values with
  | [] => Ok None
  | v :: vs =>
      let trial := a ++ [(x, v)] in
      match consistent s x trial with
      | Ok true =>
          match backtracking_search s trial with
          | Ok (Some r) => Ok (Some r)
          | Ok None => branch_in_order s a x vs
          | Raise e => Raise e
          end
      | Ok false => branch_in_order s a x vs
      | Raise e => Raise e
      end
  end.

(** Every registered constraint whose registered variables are all bound
    holds. *)
Definition sound_upto_in (s : @CSP V D) (a : @assignment V D) : Prop :=
  forall c, registered s c ->
  (forall z, registered_at s c z -> In z (keys a)) -> satisfied c a = true.

(** The store [h'] extends [h] and leaves every object of [h] as it was. *)
Definition frame (h h' : @heap V D) : Prop :=
  length h <= length h' /\ forall l, l < length h -> deref h' l = deref h l.

(** A returned location names an object of the store. *)
Definition res_valid (h : @heap V D) (r : res (option loc)) : Prop :=
  match r with Ok (Some l) => l < length h | _ => True end.

(** A store-passing search procedure computes, on the object at [l], what
    the value-level one computes on its contents, and only extends the
    store. *)
Definition refines (rec_h : heap -> loc -> option (heap * res (option loc)))
    (rec : @assignment V D -> option (res (option assignment))) : Prop :=
  forall h l, l < length h ->
  match rec_h h l with
  | None => rec (deref h l) = None
  | Some (h', r) => rec (deref h l) = Some (deref_res h' r) /\ frame h h' /\ res_valid h' r
  end.

End Predicates.

(** * Proofs *)

Section DictFacts.

Context {V A : Type} `{EqDecV V}.

Lemma lookup_dict_set_same (d : list (V * A)) k x : lookup (dict_set d k x) k = Some x.
Proof.
  induction d as [|[k' y] d IH]; simpl.
  - destruct (eq_decV k k); congruence.
  - destruct (eq_decV k k') as [->|Hne]; simpl.
    + destruct (eq_decV k' k'); congruence.
    + destruct (eq_decV k k'); [congruence|exact IH].
Qed.

Lemma lookup_dict_set_other (d : list (V * A)) k k' x :
  k' <> k -> lookup (dict_set d k x) k' = lookup d k'.
Proof.
  intros Hne. induction d as [|[k0 y] d IH]; simpl.
  - destruct (eq_decV k' k); congruence.
  - destruct (eq_decV k k0) as [->|Hne0]; simpl.
    + destruct (eq_decV k' k0); congruence.
    + destruct (eq_decV k' k0); [reflexivity|exact IH].
Qed.

Lemma lookup_None_iff (d : list (V * A)) k : lookup d k = None <-> ~ In k (keys d).
Proof.
  induction d as [|[k' y] d IH]; simpl.
  - tauto.
  - destruct (eq_decV k k') as [->|Hne].
    + split; [discriminate|]. intros Hn. exfalso. apply Hn. left. reflexivity.
    + rewrite IH. intuition.
Qed.

Lemma lookup_Some_In (d : list (V * A)) k x : lookup d k = Some x -> In (k, x) d.
Proof.
  induction d as [|[k' y] d IH]; simpl; [discriminate|].
  destruct (eq_decV k k') as [->|Hne].
  - intros [= ->]. left. reflexivity.
  - intros Hl. right. exact (IH Hl).
Qed.

Lemma In_lookup (d : list (V * A)) k x :
  NoDup (keys d) -> In (k, x) d -> lookup d k = Some x.
Proof.
  induction d as [|[k' y] d IH]; simpl; [tauto|].
  intros Hnd Hin. inversion Hnd as [|? ? Hk' Hnd']; subst.
  destruct (eq_decV k k') as [->|Hne].
  - destruct Hin as [[= ->]|Hin]; [reflexivity|].
    exfalso. apply Hk'. apply (in_map fst) in Hin. exact Hin.
  - destruct Hin as [[= -> ->]|Hin]; [congruence|]. exact (IH Hnd' Hin).
Qed.

Lemma mem_true_iff (d : list (V * A)) k : mem k d = true <-> In k (keys d).
Proof.
  unfold mem. destruct (lookup d k) eqn:E.
  - split; [|reflexivity]. intros _.
    destruct (In_dec eq_decV k (keys d)) as [?|Hn]; [assumption|].
    apply lookup_None_iff in Hn. congruence.
  - apply lookup_None_iff in E. split; [discriminate|contradiction].
Qed.

Lemma in_list_iff (l : list V) k : in_list k l = true <-> In k l.
Proof.
  induction l as [|k' l IH]; simpl; [split; [discriminate|tauto]|].
  destruct (eq_decV k k') as [->|Hne].
  - split; [left; reflexivity|reflexivity].
  - rewrite IH. intuition.
Qed.

Lemma dict_set_absent (d : list (V * A)) k x :
  ~ In k (keys d) -> dict_set d k x = d ++ [(k, x)].
Proof.
  induction d as [|[k' y] d IH]; simpl; [reflexivity|].
  intros Hn. destruct (eq_decV k k') as [->|Hne].
  - exfalso. apply Hn. left. reflexivity.
  - f_equal. apply IH. tauto.
Qed.

Lemma lookup_app_l (d : list (V * A)) k y x :
  k <> y -> lookup (d ++ [(y, x)]) k = lookup d k.
Proof.
  intros Hne. induction d as [|[k' z] d IH]; simpl.
  - destruct (eq_decV k y); congruence.
  - destruct (eq_decV k k'); [reflexivity|exact IH].
Qed.

Lemma keys_app (d : list (V * A)) y x : keys (d ++ [(y, x)]) = keys d ++ [y].
Proof. unfold keys. rewrite map_app. reflexivity. Qed.

End DictFacts.

Section FilterFacts.

Context {X : Type}.

Lemma filter_length_mono (p q : X -> bool) (l : list X) :
  (forall v, q v = true -> p v = true) ->
  length (filter q l) <= length (filter p l).
Proof.
  intros Hqp. induction l as [|y l IH]; simpl; [lia|].
  destruct (q y) eqn:Eq.
  - rewrite (Hqp y Eq). simpl. lia.
  - destruct (p y); simpl; lia.
Qed.

Lemma filter_length_strict (p q : X -> bool) (l : list X) x :
  (forall v, q v = true -> p v = true) ->
  In x l -> p x = true -> q x = false ->
  length (filter q l) < length (filter p l).
Proof.
  intros Hqp. induction l as [|y l IH]; simpl; [tauto|].
  intros [->|Hin] Hp Hq.
  - rewrite Hp, Hq. simpl. pose proof (filter_length_mono p q l Hqp). lia.
  - specialize (IH Hin Hp Hq). destruct (q y) eqn:Eq.
    + rewrite (Hqp y Eq). simpl. lia.
    + destruct (p y); simpl; lia.
Qed.

End FilterFacts.

Section SearchFacts.

Context {V D : Type} `{EqDecV V}.
Variable s : @CSP V D.

Lemma mem_dict_set {A} (d : list (V * A)) k x y :
  mem k d = true -> mem k (dict_set d x y) = true.
Proof.
  unfold mem. destruct (eq_decV k x) as [->|Hne].
  - rewrite lookup_dict_set_same. reflexivity.
  - rewrite lookup_dict_set_other by exact Hne. exact (fun h => h).
Qed.

Lemma unassigned_In (a : assignment) v :
  In v (unassigned s a) <-> In v (variables s) /\ ~ In v (keys a).
Proof.
  unfold unassigned. rewrite filter_In, <- mem_true_iff.
  destruct (mem v a); simpl; intuition congruence.
Qed.

Lemma unassigned_le (a : assignment) : length (unassigned s a) <= length (variables s).
Proof. apply filter_length_le. Qed.

Lemma unassigned_step (a : assignment) x v :
  In x (unassigned s a) ->
  length (unassigned s (dict_set a x v)) < length (unassigned s a).
Proof.
  intros Hx. unfold unassigned in *. apply filter_In in Hx as [Hx Hp].
  apply (filter_length_strict _ _ _ x); [| exact Hx | exact Hp |].
  - intros w Hw. destruct (mem w a) eqn:E; [|reflexivity].
    apply (mem_dict_set _ _ x v) in E. rewrite E in Hw. discriminate.
  - unfold mem. rewrite lookup_dict_set_same. reflexivity.
Qed.

Lemma search_values_ext rec1 rec2 (a : assignment) first values :
  (forall v, rec1 (dict_set a first v) = rec2 (dict_set a first v)) ->
  search_values s rec1 a first values = search_values s rec2 a first values.
Proof.
  intros Hr. induction values as [|v vs IH]; simpl; [reflexivity|].
  rewrite Hr, IH. reflexivity.
Qed.

Lemma search_values_defined rec (a : assignment) first values :
  (forall v, rec (dict_set a first v) <> None) ->
  search_values s rec a first values <> None.
Proof.
  intros Hr. induction values as [|v vs IH]; simpl; [discriminate|].
  destruct (consistent s first (dict_set a first v)) as [[|]|e]; [|exact IH|discriminate].
  specialize (Hr v). destruct (rec (dict_set a first v)) as [[[r|]|e]|];
    [discriminate|exact IH|discriminate|contradiction].
Qed.

Lemma bt_fuel_mono n : forall a m,
  length (unassigned s a) < n -> n <= m -> bt s m a = bt s n a.
Proof.
  induction n as [|n IH]; intros a m Hn Hm; [lia|].
  destruct m as [|m]; [lia|]. simpl.
  destruct (Nat.eqb _ _); [reflexivity|].
  destruct (unassigned s a) as [|first rest] eqn:Eu; [reflexivity|].
  destruct (lookup (domains s) first); [|reflexivity].
  apply search_values_ext. intros v. apply IH; [|lia].
  pose proof (unassigned_step a first v) as Hs. rewrite Eu in Hs.
  specialize (Hs (or_introl eq_refl)). simpl in Hn, Hs. lia.
Qed.

(** The fuel given by [backtracking_search] never runs out. *)
Lemma bt_fuel_enough n : forall a, length (unassigned s a) < n -> bt s n a <> None.
Proof.
  induction n as [|n IH]; intros a Hn; [lia|]. simpl.
  destruct (Nat.eqb _ _); [discriminate|].
  destruct (unassigned s a) as [|first rest] eqn:Eu; [discriminate|].
  destruct (lookup (domains s) first); [|discriminate].
  apply search_values_defined. intros v. apply IH.
  pose proof (unassigned_step a first v) as Hs. rewrite Eu in Hs.
  specialize (Hs (or_introl eq_refl)). simpl in Hn, Hs. lia.
Qed.

Lemma bt_backtracking_search n (a : assignment) :
  length (unassigned s a) < n -> bt s n a = Some (backtracking_search s a).
Proof.
  intros Hn. unfold backtracking_search.
  pose proof (unassigned_le a) as Hle.
  rewrite (bt_fuel_mono (S (length (unassigned s a))) a n) by lia.
  rewrite (bt_fuel_mono (S (length (unassigned s a))) a (S (length (variables s)))) by lia.
  destruct (bt s (S (length (unassigned s a))) a) eqn:E; [reflexivity|].
  exfalso. exact (bt_fuel_enough _ a (Nat.lt_succ_diag_r _) E).
Qed.

(** The recursion equation of [backtracking_search]. *)
Lemma backtracking_search_unfold (a : assignment) :
  Some (backtracking_search s a) =
  if Nat.eqb (length a) (length (variables s)) then Some (Ok (Some a))
  else
    match unassigned s a with
    | [] => Some (Raise IndexError)
    | first :: _ =>
        match lookup (domains s) first with
        | None => Some (Raise KeyError)
        | Some dom =>
            search_values s (fun t => Some (backtracking_search s t)) a first dom
        end
    end.
Proof.
  rewrite <- (bt_backtracking_search (S (length (unassigned s a))) a) by lia.
  simpl. destruct (Nat.eqb _ _); [reflexivity|].
  destruct (unassigned s a) as [|first rest] eqn:Eu; [reflexivity|].
  destruct (lookup (domains s) first); [|reflexivity].
  apply search_values_ext. intros v. apply bt_backtracking_search.
  pose proof (unassigned_step a first v) as Hs. rewrite Eu in Hs.
  specialize (Hs (or_introl eq_refl)). simpl in Hs |- *. lia.
Qed.

End SearchFacts.

Section ProblemFacts.

Context {V D : Type} `{EqDecV V}.

Lemma lookup_dict_set_defined {A} (d : list (V * A)) k x w :
  lookup (dict_set d k x) w <> None <-> lookup d w <> None \/ w = k.
Proof.
  destruct (eq_decV w k) as [->|Hne].
  - rewrite lookup_dict_set_same. split; [intros _; right; reflexivity|discriminate].
  - rewrite lookup_dict_set_other by exact Hne. intuition.
Qed.

Lemma init_loop_spec (vars : list V) (doms : list (V * list D)) :
  forall (reg reg' : list (V * list (@Constraint V D))),
  init_loop vars doms reg = Ok reg' ->
  (forall v, In v vars -> exists dom, lookup doms v = Some dom) /\
  (forall w, lookup reg' w <> None <-> lookup reg w <> None \/ In w vars).
Proof.
  induction vars as [|v vs IH]; simpl; intros reg reg' Hi.
  - injection Hi as ->. split; [tauto|]. intros w. tauto.
  - destruct (mem v doms) eqn:Em; [|discriminate].
    destruct (IH _ _ Hi) as [Hd Hk]. split.
    + intros w [<-|Hw]; [|exact (Hd w Hw)].
      unfold mem in Em. destruct (lookup doms v) as [dom|]; [exists dom; reflexivity|discriminate].
    + intros w. rewrite Hk, lookup_dict_set_defined. intuition.
Qed.

Lemma csp_init_wf vars doms (s : @CSP V D) : csp_init vars doms = Ok s -> wf s.
Proof.
  unfold csp_init. destruct (init_loop vars doms []) as [reg|e] eqn:Ei; [|discriminate].
  intros [= <-]. destruct (init_loop_spec _ _ _ _ Ei) as [Hd Hk].
  split; [|split]; simpl.
  - exact Hd.
  - intros v Hv. destruct (lookup reg v) as [cs|] eqn:E; [exists cs; reflexivity|].
    exfalso. apply (proj2 (Hk v)); [right; exact Hv|exact E].
  - intros v cs Hl. assert (lookup reg v <> None) as Hn by congruence.
    apply Hk in Hn. destruct Hn as [Hn|Hn]; [simpl in Hn; congruence|exact Hn].
Qed.

(** One registration step [self.constraints[v].append(c)] for a declared
    [v]. *)
Lemma register_wf (s : @CSP V D) c v cs :
  wf s -> In v (variables s) -> lookup (constraints s) v = Some cs ->
  wf (mkCSP (variables s) (domains s) (dict_set (constraints s) v (cs ++ [c]))).
Proof.
  intros (Hd & Hc & Hk) Hv Hl. split; [|split]; simpl.
  - exact Hd.
  - intros w Hw. destruct (eq_decV w v) as [->|Hne].
    + rewrite lookup_dict_set_same. eexists. reflexivity.
    + rewrite lookup_dict_set_other by exact Hne. exact (Hc w Hw).
  - intros w cs' Hl'. destruct (eq_decV w v) as [->|Hne]; [exact Hv|].
    rewrite lookup_dict_set_other in Hl' by exact Hne. exact (Hk w cs' Hl').
Qed.

Lemma add_loop_wf c vs : forall (s : @CSP V D), wf s -> wf (fst (add_loop c vs s)).
Proof.
  induction vs as [|v vs IH]; simpl; intros s Hw; [exact Hw|].
  destruct (in_list v (variables s)) eqn:Ei; [|exact Hw].
  destruct (lookup (constraints s) v) as [cs|] eqn:El; [|exact Hw].
  apply IH. apply register_wf; [exact Hw| |exact El]. apply in_list_iff. exact Ei.
Qed.

Lemma reachable_wf (s : @CSP V D) : reachable s -> wf s.
Proof.
  induction 1 as [vars doms s Hi|s c _ IH].
  - exact (csp_init_wf _ _ _ Hi).
  - exact (add_loop_wf c (cvars c) s IH).
Qed.

(** Registering [c] under each variable of a prefix of declared variables. *)
Lemma add_loop_prefix c pre : forall (s : @CSP V D) rest,
  wf s -> Forall (fun v => In v (variables s)) pre ->
  exists s', add_loop c (pre ++ rest) s = add_loop c rest s' /\ wf s' /\
    variables s' = variables s /\ domains s' = domains s /\
    forall w, lookup (constraints s') w =
      option_map (fun cs => cs ++ repeat c (count_occ eq_decV pre w)) (lookup (constraints s) w).
Proof.
  induction pre as [|v pre IH]; simpl; intros s rest Hw Hpre.
  - exists s. split; [reflexivity|]. split; [exact Hw|]. split; [reflexivity|].
    split; [reflexivity|]. intros w. destruct (lookup (constraints s) w); simpl;
    [rewrite app_nil_r|]; reflexivity.
  - inversion Hpre as [|? ? Hv Hpre']; subst.
    assert (in_list v (variables s) = true) as Ei by (apply in_list_iff; exact Hv).
    rewrite Ei. destruct (proj1 (proj2 Hw) v Hv) as [cs Hl]. rewrite Hl.
    set (s1 := mkCSP (variables s) (domains s) (dict_set (constraints s) v (cs ++ [c]))).
    assert (wf s1) as Hw1 by (apply register_wf; assumption).
    destruct (IH s1 rest Hw1 Hpre') as (s' & Heq & Hw' & Hv' & Hd' & Hl').
    exists s'. split; [exact Heq|]. split; [exact Hw'|]. split; [exact Hv'|].
    split; [exact Hd'|]. intros w. rewrite Hl'. simpl.
    destruct (eq_decV v w) as [->|Hne].
    + rewrite lookup_dict_set_same, Hl. simpl. rewrite <- app_assoc. reflexivity.
    + rewrite lookup_dict_set_other by congruence. reflexivity.
Qed.

Lemma consistent_loop_ok v cs (a : @assignment V D) :
  lookup a v <> None ->
  consistent_loop v cs a = Ok (forallb (fun c => satisfied c a) cs).
Proof.
  intros Ha. induction cs as [|c cs IH]; simpl.
  - destruct (lookup a v); [reflexivity|contradiction].
  - destruct (satisfied c a); simpl; [exact IH|].
    destruct (lookup a v); [reflexivity|contradiction].
Qed.

Lemma consistent_ok (s : @CSP V D) v cs a :
  lookup (constraints s) v = Some cs -> lookup a v <> None ->
  consistent s v a = Ok (forallb (fun c => satisfied c a) cs).
Proof.
  intros Hl Ha. unfold consistent. rewrite Hl. exact (consistent_loop_ok v cs a Ha).
Qed.

Lemma consistent_true (s : @CSP V D) v a :
  consistent s v a = Ok true -> forall c, registered_at s c v -> satisfied c a = true.
Proof.
  intros Hc c (cs & Hl & Hin). unfold consistent in Hc. rewrite Hl in Hc.
  assert (lookup a v <> None) as Ha.
  { clear Hin Hl. induction cs as [|c' cs IH]; simpl in Hc.
    - destruct (lookup a v); congruence.
    - destruct (satisfied c' a); [exact (IH Hc)|]. destruct (lookup a v); congruence. }
  rewrite (consistent_loop_ok v cs a Ha) in Hc. injection Hc as Hc.
  rewrite forallb_forall in Hc. exact (Hc c Hin).
Qed.

End ProblemFacts.

Section SearchInvariants.

Context {V D : Type} `{EqDecV V}.
Variable s : @CSP V D.
Hypothesis Hwf : wf s.

Local Abbreviation good := (good_assignment s).
Local Abbreviation sound_upto := (sound_upto_in s).

Lemma good_nil : good [].
Proof. split; [constructor|intros ? []]. Qed.

Lemma good_step (a : assignment) first v :
  good a -> In first (unassigned s a) ->
  dict_set a first v = a ++ [(first, v)] /\ good (dict_set a first v).
Proof.
  intros [Hnd Hinc] Hu. apply unassigned_In in Hu as [Hv Hn].
  rewrite (dict_set_absent a first v Hn). split; [reflexivity|].
  unfold good_assignment. rewrite keys_app. split.
  - apply NoDup_app; [exact Hnd|repeat constructor; simpl; tauto|].
    intros z Hz [<-|[]]. exact (Hn Hz).
  - intros z Hz. apply in_app_or in Hz as [Hz|[<-|[]]]; [exact (Hinc z Hz)|exact Hv].
Qed.

Lemma consistent_defined (a : assignment) first v :
  In first (variables s) -> exists b, consistent s first (dict_set a first v) = Ok b.
Proof.
  intros Hv. destruct (proj1 (proj2 Hwf) first Hv) as [cs Hl].
  eexists. apply (consistent_ok s first cs _ Hl). rewrite lookup_dict_set_same. discriminate.
Qed.

Lemma search_values_found rec (a : assignment) first values r :
  search_values s rec a first values = Some (Ok (Some r)) ->
  exists v, consistent s first (dict_set a first v) = Ok true /\
            rec (dict_set a first v) = Some (Ok (Some r)).
Proof.
  induction values as [|v vs IH]; simpl; [discriminate|].
  destruct (consistent s first (dict_set a first v)) as [[|]|e] eqn:Ec; [|exact IH|discriminate].
  destruct (rec (dict_set a first v)) as [[[r'|]|e]|] eqn:Er; try discriminate.
  - intros Hr. exists v. split; [exact Ec|rewrite Er; exact Hr].
  - exact IH.
Qed.

Lemma search_values_ok rec (a : assignment) first values :
  (forall v, exists b, consistent s first (dict_set a first v) = Ok b) ->
  (forall v, exists o, rec (dict_set a first v) = Some (Ok o)) ->
  exists o, search_values s rec a first values = Some (Ok o).
Proof.
  intros Hc Hr. induction values as [|v vs IH]; simpl; [eexists; reflexivity|].
  destruct (Hc v) as [[|] Eb]; rewrite Eb; [|exact IH].
  destruct (Hr v) as [[o|] Eo]; rewrite Eo; [eexists; reflexivity|exact IH].
Qed.

Lemma search_values_none rec (a : assignment) first values :
  (forall v, exists b, consistent s first (dict_set a first v) = Ok b) ->
  (forall v, rec (dict_set a first v) = Some (Ok None)) ->
  search_values s rec a first values = Some (Ok None).
Proof.
  intros Hc Hr. induction values as [|v vs IH]; simpl; [reflexivity|].
  destruct (Hc v) as [[|] Eb]; rewrite Eb; [|exact IH].
  rewrite Hr. exact IH.
Qed.

Lemma search_values_find rec (a : assignment) first values v0 :
  In v0 values ->
  (forall v, exists b, consistent s first (dict_set a first v) = Ok b) ->
  (forall v, exists o, rec (dict_set a first v) = Some (Ok o)) ->
  consistent s first (dict_set a first v0) = Ok true ->
  (exists r, rec (dict_set a first v0) = Some (Ok (Some r))) ->
  exists r, search_values s rec a first values = Some (Ok (Some r)).
Proof.
  intros Hin Hc Hr Hc0 [r0 Hr0]. induction values as [|v vs IH]; simpl; [contradiction|].
  destruct Hin as [<-|Hin].
  - rewrite Hc0, Hr0. eexists. reflexivity.
  - destruct (Hc v) as [[|] Eb]; rewrite Eb; [|exact (IH Hin)].
    destruct (Hr v) as [[o|] Eo]; rewrite Eo; [eexists; reflexivity|exact (IH Hin)].
Qed.

(** ** Soundness of a returned assignment. *)


Lemma sound_upto_nil : sound_upto [].
Proof. intros c [z Hz] Hall. destruct (Hall z Hz). Qed.

Lemma sound_upto_step (a : assignment) first v :
  local_to_registration s -> good a -> good (a ++ [(first, v)]) ->
  sound_upto a -> ~ In first (keys a) ->
  consistent s first (a ++ [(first, v)]) = Ok true ->
  sound_upto (a ++ [(first, v)]).
Proof.
  intros Hloc Hg Hg' Hs Hn Hc c Hreg Hall.
  destruct (classic (registered_at s c first)) as [Hf|Hf].
  - exact (consistent_true s first _ Hc c Hf).
  - assert (forall z, registered_at s c z -> z <> first) as Hne
      by (intros z Hz ->; exact (Hf Hz)).
    rewrite (Hloc c Hreg (a ++ [(first, v)]) a Hg' Hg).
    + apply Hs; [exact Hreg|]. intros z Hz. specialize (Hall z Hz).
      rewrite keys_app in Hall. apply in_app_or in Hall as [Hall|[Heq|[]]];
        [exact Hall|symmetry in Heq; destruct (Hne z Hz Heq)].
    + intros z Hz. apply lookup_app_l. exact (Hne z Hz).
Qed.

Lemma bt_sound (Hloc : local_to_registration s) n : forall a r,
  good a -> sound_upto a -> bt s n a = Some (Ok (Some r)) ->
  good r /\ sound_upto r /\ length r = length (variables s).
Proof.
  induction n as [|n IH]; simpl; intros a r Hg Hs Hbt; [discriminate|].
  destruct (Nat.eqb (length a) (length (variables s))) eqn:Eq.
  - injection Hbt as <-. apply Nat.eqb_eq in Eq. tauto.
  - destruct (unassigned s a) as [|first rest] eqn:Eu; [discriminate|].
    destruct (lookup (domains s) first) as [dom|]; [|discriminate].
    apply search_values_found in Hbt as (v & Hc & Hrec).
    assert (In first (unassigned s a)) as Hu by (rewrite Eu; left; reflexivity).
    destruct (good_step a first v Hg Hu) as [Heq Hg'].
    apply (IH _ _ Hg'); [|exact Hrec].
    rewrite Heq in Hc, Hg' |- *. apply sound_upto_step; [exact Hloc|exact Hg|exact Hg'|exact Hs| |exact Hc].
    apply unassigned_In in Hu. tauto.
Qed.

Lemma good_full (a : assignment) :
  good a -> length a = length (variables s) -> Permutation (keys a) (variables s).
Proof.
  intros [Hnd Hinc] Hlen.
  assert (length (variables s) <= length (keys a)) as Hle
    by (unfold keys; rewrite length_map; lia).
  apply NoDup_Permutation; [exact Hnd|exact (NoDup_incl_NoDup Hnd Hle Hinc)|].
  intros z. split; [apply Hinc|apply (NoDup_length_incl Hnd Hle Hinc)].
Qed.

(** ** No exception for distinct declared variables. *)

Lemma incomplete_next (a : assignment) :
  NoDup (variables s) -> good a -> Nat.eqb (length a) (length (variables s)) = false ->
  exists first rest, unassigned s a = first :: rest.
Proof.
  intros Hnd [Hnda Hinc] Eq. destruct (unassigned s a) as [|first rest] eqn:Eu; [|eauto].
  exfalso. apply Nat.eqb_neq in Eq. apply Eq.
  assert (incl (variables s) (keys a)) as Hinc'.
  { intros z Hz. destruct (In_dec eq_decV z (keys a)) as [?|Hn]; [assumption|].
    assert (In z (unassigned s a)) as Hu by (apply unassigned_In; tauto).
    rewrite Eu in Hu. destruct Hu. }
  pose proof (NoDup_incl_length Hnda Hinc).
  pose proof (NoDup_incl_length Hnd Hinc').
  unfold keys in *. rewrite length_map in *. lia.
Qed.

Lemma bt_no_raise (Hnd : NoDup (variables s)) n : forall a,
  length (unassigned s a) < n -> good a -> exists o, bt s n a = Some (Ok o).
Proof.
  induction n as [|n IH]; simpl; intros a Hn Hg; [lia|].
  destruct (Nat.eqb (length a) (length (variables s))) eqn:Eq; [eexists; reflexivity|].
  destruct (incomplete_next a Hnd Hg Eq) as (first & rest & Eu). rewrite Eu.
  assert (In first (unassigned s a)) as Hu by (rewrite Eu; left; reflexivity).
  pose proof Hu as Hv. apply unassigned_In in Hv as [Hv _].
  destruct (proj1 Hwf first Hv) as [dom Hd]. rewrite Hd.
  apply search_values_ok; [intros v; exact (consistent_defined a first v Hv)|].
  intros v. apply IH; [|exact (proj2 (good_step a first v Hg Hu))].
  pose proof (unassigned_step s a first v Hu). rewrite Eu in *. simpl in *. lia.
Qed.

(** ** Completeness. *)

Lemma bt_complete (Hnd : NoDup (variables s)) (Hvac : absent_vacuous s) sol
    (Hsol : complete_solution s sol) n : forall a,
  length (unassigned s a) < n -> good a -> sub a sol ->
  exists r, bt s n a = Some (Ok (Some r)).
Proof.
  induction n as [|n IH]; simpl; intros a Hn Hg Hsub; [lia|].
  destruct (Nat.eqb (length a) (length (variables s))) eqn:Eq; [eexists; reflexivity|].
  destruct (incomplete_next a Hnd Hg Eq) as (first & rest & Eu). rewrite Eu.
  assert (In first (unassigned s a)) as Hu by (rewrite Eu; left; reflexivity).
  pose proof Hu as Hv. apply unassigned_In in Hv as [Hv Hna].
  destruct (proj1 Hsol first Hv) as (v0 & dom & Hs0 & Hd & Hin). rewrite Hd.
  assert (forall v, length (unassigned s (dict_set a first v)) < n) as Hlt.
  { intros v. pose proof (unassigned_step s a first v Hu). rewrite Eu in *. simpl in *. lia. }
  assert (sub (dict_set a first v0) sol) as Hsub0.
  { intros k w. destruct (eq_decV k first) as [->|Hne].
    - rewrite lookup_dict_set_same. intros [= <-]. exact Hs0.
    - rewrite lookup_dict_set_other by exact Hne. apply Hsub. }
  apply (search_values_find _ a first dom v0 Hin).
  - intros v. exact (consistent_defined a first v Hv).
  - intros v. apply (bt_no_raise Hnd n _ (Hlt v)). exact (proj2 (good_step a first v Hg Hu)).
  - destruct (proj1 (proj2 Hwf) first Hv) as [cs Hl].
    rewrite (consistent_ok s first cs _ Hl) by (rewrite lookup_dict_set_same; discriminate).
    f_equal. apply forallb_forall. intros c Hc.
    apply (Hvac c (ex_intro _ first (ex_intro _ cs (conj Hl Hc))) _ sol
             (proj2 (good_step a first v0 Hg Hu)) Hsub0).
    apply (proj2 Hsol). exists first, cs. tauto.
  - apply IH; [exact (Hlt v0)|exact (proj2 (good_step a first v0 Hg Hu))|exact Hsub0].
Qed.

(** ** A variable with an empty domain. *)

Lemma bt_empty_domain x (Hx : In x (variables s)) (Hdx : lookup (domains s) x = Some [])
    n : forall a,
  length (unassigned s a) < n -> good a -> ~ In x (keys a) -> bt s n a = Some (Ok None).
Proof.
  induction n as [|n IH]; simpl; intros a Hn Hg Hxa; [lia|].
  destruct (Nat.eqb (length a) (length (variables s))) eqn:Eq.
  - exfalso. apply Nat.eqb_eq in Eq. destruct Hg as [Hnda Hinc].
    assert (NoDup (x :: keys a)) as Hnd' by (constructor; assumption).
    assert (incl (x :: keys a) (variables s)) as Hinc'
      by (intros z [<-|Hz]; [exact Hx|exact (Hinc z Hz)]).
    pose proof (NoDup_incl_length Hnd' Hinc'). simpl in *.
    unfold keys in *. rewrite length_map in *. lia.
  - assert (In x (unassigned s a)) as Hxu by (apply unassigned_In; tauto).
    destruct (unassigned s a) as [|first rest] eqn:Eu; [destruct Hxu|].
    assert (In first (unassigned s a)) as Hu by (rewrite Eu; left; reflexivity).
    pose proof Hu as Hv. apply unassigned_In in Hv as [Hv _].
    destruct (eq_decV first x) as [->|Hne]; [rewrite Hdx; reflexivity|].
    destruct (proj1 Hwf first Hv) as [dom Hd]. rewrite Hd.
    apply search_values_none; [intros v; exact (consistent_defined a first v Hv)|].
    intros v. destruct (good_step a first v Hg Hu) as [Heq Hg']. apply IH; [|exact Hg'|].
    + pose proof (unassigned_step s a first v Hu). rewrite Eu in *. simpl in *. lia.
    + rewrite Heq, keys_app. intros Hin. apply in_app_or in Hin as [Hin|[Hin|[]]];
        [exact (Hxa Hin)|exact (Hne Hin)].
Qed.

End SearchInvariants.

Section HeapFacts.

Context {V D : Type} `{EqDecV V}.

Lemma length_upd (h : @heap V D) l x : length (upd h l x) = length h.
Proof. revert l; induction h as [|y h IH]; intros [|l]; simpl; auto. Qed.

Lemma deref_upd_same (h : @heap V D) l x : l < length h -> deref (upd h l x) l = x.
Proof.
  revert l; induction h as [|y h IH]; intros [|l] Hl; simpl in *; try lia; [reflexivity|].
  apply IH. lia.
Qed.

Lemma deref_upd_other (h : @heap V D) l l' x : l' <> l -> deref (upd h l x) l' = deref h l'.
Proof.
  revert l l'; induction h as [|y h IH]; intros [|l] [|l'] Hne; simpl; try reflexivity; [lia|].
  apply IH. lia.
Qed.

Lemma deref_app_lt (h : @heap V D) x l : l < length h -> deref (h ++ [x]) l = deref h l.
Proof. intros Hl. unfold deref. apply app_nth1. exact Hl. Qed.

Lemma deref_app_len (h : @heap V D) x : deref (h ++ [x]) (length h) = x.
Proof. unfold deref. rewrite app_nth2, Nat.sub_diag by lia. reflexivity. Qed.

Lemma frame_refl (h : @heap V D) : frame h h.
Proof. split; [lia|reflexivity]. Qed.

Lemma frame_trans (h1 h2 h3 : @heap V D) : frame h1 h2 -> frame h2 h3 -> frame h1 h3.
Proof.
  intros [L1 F1] [L2 F2]. split; [lia|]. intros l Hl. rewrite F2 by lia. exact (F1 l Hl).
Qed.

Lemma deref_res_frame (h h' : @heap V D) r :
  frame h h' -> res_valid h r -> deref_res h' r = deref_res h r.
Proof.
  intros [_ F] Hv. destruct r as [[l|]|e]; simpl in *; [rewrite (F l Hv)|..]; reflexivity.
Qed.

(** One iteration allocates the copy at [length h0] and writes into it. *)
Lemma copy_set_frame (h0 : @heap V D) l first v :
  l < length h0 ->
  let h2 := heap_set (h0 ++ [deref h0 l]) (length h0) first v in
  frame h0 h2 /\ length h0 < length h2 /\
  deref h2 (length h0) = dict_set (deref h0 l) first v.
Proof.
  intros Hl h2. unfold h2, heap_set, frame.
  rewrite deref_app_len, length_upd, length_app. simpl. split; [split|split].
  - lia.
  - intros l' Hl'. rewrite deref_upd_other by lia. apply deref_app_lt. exact Hl'.
  - lia.
  - apply deref_upd_same. rewrite length_app. simpl. lia.
Qed.

Variable s : @CSP V D.

Lemma search_values_h_refines rec_h rec first :
  refines rec_h rec ->
  forall values h0 l, l < length h0 ->
  match search_values_h s rec_h l first values h0 with
  | None => search_values s rec (deref h0 l) first values = None
  | Some (h', r) => search_values s rec (deref h0 l) first values = Some (deref_res h' r) /\
                    frame h0 h' /\ res_valid h' r
  end.
Proof.
  intros Hrec values. induction values as [|v vs IH]; intros h0 l Hl; simpl.
  - split; [reflexivity|]. split; [apply frame_refl|exact I].
  - destruct (copy_set_frame h0 l first v Hl) as (Hf2 & Hlen2 & Hd2).
    set (h2 := heap_set (h0 ++ [deref h0 l]) (length h0) first v) in *.
    assert (l < length h2) as Hl2 by (destruct Hf2; lia).
    assert (deref h2 l = deref h0 l) as Hdl by (apply Hf2; exact Hl).
    rewrite Hd2.
    destruct (consistent s first (dict_set (deref h0 l) first v)) as [[|]|e].
    + specialize (Hrec h2 (length h0) Hlen2). rewrite Hd2 in Hrec.
      destruct (rec_h h2 (length h0)) as [[h3 r]|]; [|rewrite Hrec; reflexivity].
      destruct Hrec as (Hr & Hf3 & Hv3). rewrite Hr.
      destruct r as [[lr|]|e]; simpl.
      * split; [reflexivity|]. split; [exact (frame_trans _ _ _ Hf2 Hf3)|exact Hv3].
      * assert (l < length h3) as Hl3 by (destruct Hf3; lia).
        specialize (IH h3 l Hl3).
        assert (deref h3 l = deref h0 l) as Hd3 by (rewrite (proj2 Hf3 l Hl2); exact Hdl).
        rewrite Hd3 in IH. destruct (search_values_h s rec_h l first vs h3) as [[h' r]|];
          [|exact IH].
        destruct IH as (IH1 & IH2 & IH3). split; [exact IH1|].
        split; [exact (frame_trans _ _ _ (frame_trans _ _ _ Hf2 Hf3) IH2)|exact IH3].
      * split; [reflexivity|]. split; [exact (frame_trans _ _ _ Hf2 Hf3)|exact I].
    + specialize (IH h2 l Hl2). rewrite Hdl in IH.
      destruct (search_values_h s rec_h l first vs h2) as [[h' r]|]; [|exact IH].
      destruct IH as (IH1 & IH2 & IH3). split; [exact IH1|].
      split; [exact (frame_trans _ _ _ Hf2 IH2)|exact IH3].
    + split; [reflexivity|]. split; [exact Hf2|exact I].
Qed.

Lemma bt_h_refines n : refines (bt_h s n) (bt s n).
Proof.
  induction n as [|n IH]; intros h l Hl; simpl; [reflexivity|].
  destruct (Nat.eqb _ _).
  - split; [reflexivity|]. split; [apply frame_refl|exact Hl].
  - destruct (unassigned s (deref h l)) as [|first rest].
    + split; [reflexivity|]. split; [apply frame_refl|exact I].
    + destruct (lookup (domains s) first) as [dom|].
      * exact (search_values_h_refines _ _ first IH dom h l Hl).
      * split; [reflexivity|]. split; [apply frame_refl|exact I].
Qed.

Lemma backtracking_search_h_refines h l : l < length h ->
  deref_res (fst (backtracking_search_h s h l)) (snd (backtracking_search_h s h l)) =
    backtracking_search s (deref h l) /\
  frame h (fst (backtracking_search_h s h l)) /\
  res_valid (fst (backtracking_search_h s h l)) (snd (backtracking_search_h s h l)).
Proof.
  intros Hl. pose proof (bt_h_refines (S (length (variables s))) h l Hl) as Hr.
  unfold backtracking_search_h, backtracking_search.
  destruct (bt_h s (S (length (variables s))) h l) as [[h' r]|].
  - destruct Hr as (Hr & Hf & Hv). rewrite Hr. simpl. tauto.
  - exfalso. refine (bt_fuel_enough s _ (deref h l) _ Hr).
    pose proof (unassigned_le s (deref h l)). lia.
Qed.

End HeapFacts.

Section QueensFacts.

Local Open Scope Z_scope.

Lemma in_range q lo hi : In q (range lo hi) <-> lo <= q < hi.
Proof.
  unfold range. rewrite in_map_iff. split.
  - intros (i & <- & Hi). apply in_seq in Hi. lia.
  - intros Hq. exists (Z.to_nat (q - lo)). split; [lia|]. apply in_seq. lia.
Qed.

Lemma length_range lo hi : length (range lo hi) = Z.to_nat (hi - lo).
Proof. unfold range. rewrite length_map, length_seq. reflexivity. Qed.

Lemma queens_pair_check (q1r q2r q1c q2c : Z) :
  negb (Z.eqb q1r q2r) && negb (Z.eqb (Z.abs (q1c - q2c)) (Z.abs (q1r - q2r))) = true <->
  q1r <> q2r /\ Z.abs (q1c - q2c) <> Z.abs (q1r - q2r).
Proof.
  rewrite andb_true_iff, !negb_true_iff, !Z.eqb_neq. reflexivity.
Qed.

(** [QueensConstraint(columns).satisfied] checks every pair of present
    columns [q1c < q2c] with [q2c <= len(columns)]. *)
Lemma queens_satisfied_pairs (columns : list Z) (a : list (Z * Z)) :
  NoDup (keys a) ->
  (forall c, In c (keys a) -> c <= Z.of_nat (length columns)) ->
  (queens_satisfied columns a = true <->
   forall c1 r1 c2 r2, In (c1, r1) a -> In (c2, r2) a -> c1 <> c2 ->
     r1 <> r2 /\ Z.abs (c1 - c2) <> Z.abs (r1 - r2)).
Proof.
  intros Hnd Hle. unfold queens_satisfied. rewrite forallb_forall. split.
  - intros Hall.
    assert (forall c1 r1 c2 r2, In (c1, r1) a -> In (c2, r2) a -> c1 < c2 ->
              r1 <> r2 /\ Z.abs (c1 - c2) <> Z.abs (r1 - r2)) as Hlt.
    { intros c1 r1 c2 r2 H1 H2 Hc. specialize (Hall _ H1). simpl in Hall.
      rewrite forallb_forall in Hall.
      assert (In c2 (range (c1 + 1) (Z.of_nat (length columns) + 1))) as Hr.
      { apply in_range. pose proof (Hle c2 (in_map fst _ _ H2)). simpl in *. lia. }
      specialize (Hall c2 Hr). rewrite (In_lookup a c2 r2 Hnd H2) in Hall.
      apply queens_pair_check. exact Hall. }
    intros c1 r1 c2 r2 H1 H2 Hne. destruct (Z.lt_total c1 c2) as [Hc|[Hc|Hc]]; [|lia|].
    + exact (Hlt _ _ _ _ H1 H2 Hc).
    + destruct (Hlt _ _ _ _ H2 H1 Hc) as [Ha Hb]. split; lia.
  - intros Hp [q1c q1r] Hin. rewrite forallb_forall. intros q2c Hq2.
    apply in_range in Hq2. destruct (lookup a q2c) as [q2r|] eqn:E; [|reflexivity].
    apply lookup_Some_In in E. apply queens_pair_check.
    apply (Hp _ _ _ _ Hin E). lia.
Qed.

End QueensFacts.

Section Fixtures.

Lemma neq_problem_wf : wf neq_problem.
Proof.
  apply reachable_wf. apply reach_add. apply (reach_init [1; 2]%Z [(1, [1; 2]); (2, [1; 2])]%Z).
  reflexivity.
Qed.

Lemma neq_problem_registered c : registered neq_problem c -> c = neq_constraint 1 2.
Proof.
  intros (z & cs & Hl & Hin). simpl in Hl.
  destruct (eq_decV z 1%Z); [injection Hl as <-; destruct Hin as [<-|[]]; reflexivity|].
  destruct (eq_decV z 2%Z); [injection Hl as <-; destruct Hin as [<-|[]]; reflexivity|].
  discriminate.
Qed.

Lemma neq_problem_registered_at z : registered_at neq_problem (neq_constraint 1 2) z <-> z = 1%Z \/ z = 2%Z.
Proof.
  split.
  - intros (cs & Hl & _). simpl in Hl.
    destruct (eq_decV z 1%Z); [tauto|]. destruct (eq_decV z 2%Z); [tauto|]. discriminate.
  - intros [->| ->]; eexists; (split; [reflexivity|left; reflexivity]).
Qed.

Lemma neq_problem_local : local_to_registration neq_problem.
Proof.
  intros c Hreg a b _ _ Hag. apply neq_problem_registered in Hreg as ->. simpl.
  rewrite (Hag 1%Z), (Hag 2%Z) by (apply neq_problem_registered_at; tauto). reflexivity.
Qed.

Lemma neq_problem_vacuous : absent_vacuous neq_problem.
Proof.
  intros c Hreg a b _ Hsub Hb. apply neq_problem_registered in Hreg as ->. simpl in *.
  destruct (lookup a 1%Z) as [x|] eqn:E1; [|reflexivity].
  destruct (lookup a 2%Z) as [y|] eqn:E2; [|reflexivity].
  rewrite (Hsub _ _ E1), (Hsub _ _ E2) in Hb. exact Hb.
Qed.

Lemma queens4_wf : wf (queens_problem 4).
Proof.
  apply reachable_wf.
  assert (queens_problem 4 =
          fst (add_constraint (QueensConstraint (range 1 5))
                 (res_default (csp_init (range 1 5) (map (fun c => (c, range 1 5)) (range 1 5)))
                    empty_csp))) as -> by reflexivity.
  apply reach_add. apply (reach_init (range 1 5) (map (fun c => (c, range 1 5)) (range 1 5))).
  reflexivity.
Qed.

End Fixtures.

(** * The claims *)

Section Claims.

Context {V D : Type} `{EqDecV V}.

(** C2 (amended).  For every well-formed problem with pairwise distinct
    declared variables whose registered constraints treat absent variables
    as imposing no restriction: if a complete assignment over the domains
    satisfies every registered constraint, [backtracking_search] from [{}]
    returns an assignment. *)
Theorem backtracking_search_complete (s : @CSP V D) (sol : assignment) :
  wf s -> NoDup (variables s) -> absent_vacuous s -> complete_solution s sol ->
  exists r, backtracking_search s [] = Ok (Some r).
Proof.
  intros Hwf Hnd Hvac Hsol.
  destruct (bt_complete s Hwf Hnd Hvac sol Hsol (S (length (unassigned s []))) []
              (Nat.lt_succ_diag_r _) (good_nil s) (fun k v (e : lookup [] k = Some v) =>
                 match e in _ = o return match o with Some _ => _ | None => True end with
                 | eq_refl => I end)) as [r Hr].
  exists r. rewrite (bt_backtracking_search s (S (length (unassigned s []))) [] (Nat.lt_succ_diag_r _)) in Hr.
  injection Hr as ->. reflexivity.
Qed.

(** C3.  On an incomplete assignment, [backtracking_search] branches on
    the first declared variable [x] that is not a key, tries its domain
    values in order on [assignment + (x -> value)], recurses only when
    [consistent(x, trial)] holds and returns the first assignment found
    (exactly [branch_in_order]). *)
Theorem backtracking_search_branch_order (s : @CSP V D) (a : assignment) pre x post dom :
  variables s = pre ++ x :: post ->
  (forall y, In y pre -> In y (keys a)) -> ~ In x (keys a) ->
  length a <> length (variables s) ->
  lookup (domains s) x = Some dom ->
  backtracking_search s a = branch_in_order s a x dom.
Proof.
  intros Hvars Hpre Hx Hlen Hdom.
  assert (unassigned s a = x :: filter (fun v => negb (mem v a)) post) as Eu.
  { unfold unassigned. rewrite Hvars, filter_app.
    assert (filter (fun v => negb (mem v a)) pre = []) as ->.
    { clear -Hpre. induction pre as [|y pre IH]; simpl; [reflexivity|].
      rewrite (proj2 (mem_true_iff a y)) by (apply Hpre; left; reflexivity). simpl.
      apply IH. intros z Hz. apply Hpre. right. exact Hz. }
    simpl. destruct (mem x a) eqn:E; [apply mem_true_iff in E; contradiction|reflexivity]. }
  pose proof (backtracking_search_unfold s a) as U.
  apply Nat.eqb_neq in Hlen. rewrite Hlen, Eu, Hdom in U.
  assert (search_values s (fun t => Some (backtracking_search s t)) a x dom =
          Some (branch_in_order s a x dom)) as Hsv.
  { clear Hdom U. induction dom as [|v vs IH]; simpl; [reflexivity|].
    rewrite (dict_set_absent a x v Hx).
    destruct (consistent s x (a ++ [(x, v)])) as [[|]|e]; [|exact IH|reflexivity].
    destruct (backtracking_search s (a ++ [(x, v)])) as [[r|]|e]; [reflexivity|exact IH|reflexivity]. }
  rewrite Hsv in U. injection U as U. exact U.
Qed.

End Claims.

(** C1: the claim as stated fails.  [QueensConstraint([2, 3])] is
    registered under 2 and 3 only but, with [len(columns) = 2], it checks
    the pair of columns 1 and 2; with the variables in the order [2, 3, 1]
    column 1 is bound last and never checked, so the returned assignment
    violates the registered constraint. *)
Lemma backtracking_search_unsound_queens : exists s0 r,
  csp_init [2; 3; 1]%Z [(2, [1]); (3, [1]); (1, [1])]%Z = Ok s0 /\
  snd (add_constraint (QueensConstraint [2; 3]%Z) s0) = Ok tt /\
  backtracking_search (fst (add_constraint (QueensConstraint [2; 3]%Z) s0)) [] = Ok (Some r) /\
  registered (fst (add_constraint (QueensConstraint [2; 3]%Z) s0)) (QueensConstraint [2; 3]%Z) /\
  satisfied (QueensConstraint [2; 3]%Z) r = false.
Proof.
  eexists. eexists. split; [reflexivity|]. split; [reflexivity|]. split; [reflexivity|].
  split; [|reflexivity]. exists 2%Z. eexists. split; [reflexivity|left; reflexivity].
Qed.

(** C2: the claim as stated fails.  With the variable list [[1, 1]] there
    are no constraints and [{1: 1}] is complete, but the search binds 1,
    finds [len(assignment) = 1 != 2] and an empty [unassigned] list, and
    [unassigned[0]] raises [IndexError]. *)
Lemma backtracking_search_duplicate_variable : exists s,
  csp_init [1; 1]%Z [(1, [1])]%Z = Ok s /\
  absent_vacuous s /\ complete_solution s [(1, 1)]%Z /\
  backtracking_search s [] = Raise IndexError.
Proof.
  eexists. split; [reflexivity|]. split; [|split; [split|reflexivity]].
  - intros c (z & cs & Hl & Hin). simpl in Hl.
    destruct (eq_decV z 1%Z); [injection Hl as <-; destruct Hin|discriminate].
  - intros x Hx. simpl in Hx. destruct Hx as [<-|[<-|[]]];
    exists 1%Z, [1%Z]; (split; [reflexivity|split; [reflexivity|left; reflexivity]]).
  - intros c (z & cs & Hl & Hin). simpl in Hl.
    destruct (eq_decV z 1%Z); [injection Hl as <-; destruct Hin|discriminate].
Qed.

Lemma backtracking_search_complete_witness :
  (wf neq_problem /\ NoDup (variables neq_problem) /\ absent_vacuous neq_problem /\
   complete_solution neq_problem [(1, 1); (2, 2)]%Z) /\
  exists r, backtracking_search neq_problem [] = Ok (Some r).
Proof.
  assert (wf neq_problem /\ NoDup (variables neq_problem) /\ absent_vacuous neq_problem /\
          complete_solution neq_problem [(1, 1); (2, 2)]%Z) as Hyp.
  { split; [exact neq_problem_wf|]. split.
    { simpl. repeat constructor; simpl; lia. }
    split; [exact neq_problem_vacuous|]. split.
    - intros x Hx. simpl in Hx. destruct Hx as [<-|[<-|[]]]; do 2 eexists;
        (split; [reflexivity|split; [reflexivity|simpl; tauto]]).
    - intros c Hreg. apply neq_problem_registered in Hreg as ->. reflexivity. }
  split; [exact Hyp|].
  destruct Hyp as (Hw & Hn & Hv & Hs). exact (backtracking_search_complete neq_problem _ Hw Hn Hv Hs).
Defined.

Lemma backtracking_search_branch_order_witness :
  (variables (queens_problem 4) = [] ++ 1%Z :: [2; 3; 4]%Z /\
   (forall y, In y [] -> In y (keys (@nil (Z * Z)))) /\ ~ In 1%Z (keys (@nil (Z * Z))) /\
   length (@nil (Z * Z)) <> length (variables (queens_problem 4)) /\
   lookup (domains (queens_problem 4)) 1%Z = Some [1; 2; 3; 4]%Z) /\
  backtracking_search (queens_problem 4) [] = branch_in_order (queens_problem 4) [] 1%Z [1; 2; 3; 4]%Z.
Proof.
  assert ((variables (queens_problem 4) = [] ++ 1%Z :: [2; 3; 4]%Z /\
   (forall y, In y [] -> In y (keys (@nil (Z * Z)))) /\ ~ In 1%Z (keys (@nil (Z * Z))) /\
   length (@nil (Z * Z)) <> length (variables (queens_problem 4)) /\
   lookup (domains (queens_problem 4)) 1%Z = Some [1; 2; 3; 4]%Z)) as Hyp.
  { split; [reflexivity|]. split; [intros y []|]. split; [intros []|].
    split; [vm_compute; discriminate|reflexivity]. }
  split; [exact Hyp|].
  destruct Hyp as (H1 & H2 & H3 & H4 & H5).
  exact (backtracking_search_branch_order (queens_problem 4) [] [] 1%Z [2; 3; 4]%Z _ H1 H2 H3 H4 H5).
Defined.

Section Claims2.

Context {V D : Type} `{EqDecV V}.

(** C4 (amended).  Registering a constraint whose variable list
    [pre ++ u :: post] has its first undeclared variable at [u] raises
    [LookupError]; variables and domains are unchanged, and each registry
    list has gained the constraint once per occurrence of its variable in
    [pre] (so only the lists of declared variables listed before [u]
    change). *)
Theorem add_constraint_undeclared (s : @CSP V D) c pre u post :
  wf s -> cvars c = pre ++ u :: post ->
  Forall (fun v => In v (variables s)) pre -> ~ In u (variables s) ->
  snd (add_constraint c s) = Raise LookupError /\
  variables (fst (add_constraint c s)) = variables s /\
  domains (fst (add_constraint c s)) = domains s /\
  (forall w, lookup (constraints (fst (add_constraint c s))) w =
     option_map (fun cs => cs ++ repeat c (count_occ eq_decV pre w)) (lookup (constraints s) w)).
Proof.
  intros Hwf Hc Hpre Hu.
  destruct (add_loop_prefix c pre s (u :: post) Hwf Hpre) as (s' & Heq & _ & Hv & Hd & Hl).
  unfold add_constraint. rewrite Hc, Heq. simpl. rewrite Hv.
  destruct (in_list u (variables s)) eqn:E; [apply in_list_iff in E; contradiction|].
  simpl. tauto.
Qed.

(** C5.  For a declared variable and an assignment binding it,
    [consistent] evaluates exactly the constraints registered for the
    variable, in order, and returns whether all of them are satisfied
    (true when there are none). *)
Theorem consistent_contract (s : @CSP V D) v (a : assignment) :
  wf s -> In v (variables s) -> In v (keys a) ->
  exists cs, lookup (constraints s) v = Some cs /\
    consistent s v a = Ok (forallb (fun c => satisfied c a) cs) /\
    (cs = [] -> consistent s v a = Ok true).
Proof.
  intros Hwf Hv Ha. destruct (proj1 (proj2 Hwf) v Hv) as [cs Hl]. exists cs.
  assert (lookup a v <> None) as Ha' by (rewrite lookup_None_iff; tauto).
  rewrite (consistent_ok s v cs a Hl Ha'). split; [exact Hl|]. split; [reflexivity|].
  intros ->. reflexivity.
Qed.

(** C6.  If some declared variable has an empty domain,
    [backtracking_search] from [{}] returns [None]. *)
Theorem backtracking_search_empty_domain (s : @CSP V D) x :
  wf s -> In x (variables s) -> lookup (domains s) x = Some [] ->
  backtracking_search s [] = Ok None.
Proof.
  intros Hwf Hx Hd.
  pose proof (bt_empty_domain s Hwf x Hx Hd (S (length (unassigned s []))) []
                (Nat.lt_succ_diag_r _) (good_nil s) (fun h => h)) as E.
  rewrite (bt_backtracking_search s _ [] (Nat.lt_succ_diag_r _)) in E.
  injection E as E. exact E.
Qed.

(** C8.  Two calls of the store-passing [backtracking_search] on the same
    dict object [d] (the shared default [{}]): the first leaves [d] as it
    was, and both return equal dicts (compared after the second call),
    namely the value-level result on the contents of [d].  The problem
    itself is only read. *)
Theorem backtracking_search_default_idempotent (s : @CSP V D) (h : heap) (d : loc) :
  d < length h ->
  let h1 := fst (backtracking_search_h s h d) in
  let r1 := snd (backtracking_search_h s h d) in
  let h2 := fst (backtracking_search_h s h1 d) in
  let r2 := snd (backtracking_search_h s h1 d) in
  deref h1 d = deref h d /\ deref_res h2 r1 = deref_res h2 r2 /\
  deref_res h2 r2 = backtracking_search s (deref h d).
Proof.
  intros Hd h1 r1 h2 r2.
  destruct (backtracking_search_h_refines s h d Hd) as (E1 & F1 & V1).
  fold h1 r1 in E1, F1, V1.
  assert (d < length h1) as Hd1 by (destruct F1; lia).
  assert (deref h1 d = deref h d) as Ed by (apply (proj2 F1); exact Hd).
  destruct (backtracking_search_h_refines s h1 d Hd1) as (E2 & F2 & V2).
  fold h2 r2 in E2, F2, V2.
  rewrite Ed in E2. split; [exact Ed|]. split; [|exact E2].
  rewrite (deref_res_frame h1 h2 r1 F2 V1), E1, E2. reflexivity.
Qed.

(** C9.  The store-passing [backtracking_search] never changes the
    caller's dict, nor any other dict that existed before the call; it
    only allocates and writes its own copies. *)
Theorem backtracking_search_no_leak (s : @CSP V D) (h : heap) (l : loc) :
  l < length h ->
  deref (fst (backtracking_search_h s h l)) l = deref h l /\
  frame h (fst (backtracking_search_h s h l)).
Proof.
  intros Hl. destruct (backtracking_search_h_refines s h l Hl) as (_ & F & _).
  split; [exact (proj2 F l Hl)|exact F].
Qed.

(** C10.  [backtracking_search_2] on an incomplete assignment whose
    [unassigned] list has one element raises [IndexError] at
    [unassigned[1]]. *)
Theorem backtracking_search_2_last_variable (s : @CSP V D) (a : assignment) :
  length a <> length (variables s) -> length (unassigned s a) = 1 ->
  backtracking_search_2 s a = Raise IndexError.
Proof.
  intros Hlen Hu. unfold backtracking_search_2.
  apply Nat.eqb_neq in Hlen. rewrite Hlen.
  destruct (unassigned s a) as [|x [|y l]]; simpl in Hu; [discriminate|reflexivity|discriminate].
Qed.

End Claims2.

(** C7 (amended).  [QueensConstraint([1..n]).satisfied] on a dict whose keys are
    columns in [1..n] holds iff any two distinct present columns have
    different rows and are not on a common diagonal; a dict with at most
    one queen satisfies it. *)
Theorem queens_satisfied_spec (n : nat) (a : list (Z * Z)) :
  NoDup (keys a) -> (forall c, In c (keys a) -> (1 <= c <= Z.of_nat n)%Z) ->
  (queens_satisfied (range 1 (Z.of_nat n + 1)) a = true <->
   forall c1 r1 c2 r2, In (c1, r1) a -> In (c2, r2) a -> c1 <> c2 ->
     r1 <> r2 /\ Z.abs (c1 - c2) <> Z.abs (r1 - r2)) /\
  (length a <= 1 -> queens_satisfied (range 1 (Z.of_nat n + 1)) a = true).
Proof.
  intros Hnd Hr.
  assert (queens_satisfied (range 1 (Z.of_nat n + 1)) a = true <->
          forall c1 r1 c2 r2, In (c1, r1) a -> In (c2, r2) a -> c1 <> c2 ->
            r1 <> r2 /\ Z.abs (c1 - c2) <> Z.abs (r1 - r2)) as Hiff.
  { apply queens_satisfied_pairs; [exact Hnd|].
    intros c Hc. rewrite length_range. specialize (Hr c Hc). lia. }
  split; [exact Hiff|]. intros Hle. apply Hiff.
  intros c1 r1 c2 r2 H1 H2 Hne. exfalso. apply Hne.
  destruct a as [|p [|q a']]; simpl in *; [destruct H1|..|lia].
  destruct H1 as [->|[]]. destruct H2 as [[= -> _]|[]]. reflexivity.
Qed.

(** C4: the claim as stated fails.  [add_constraint] appends to
    [constraints[1]] before it reaches the undeclared variable 2 and
    raises, so the registry of 1 has changed. *)
Lemma add_constraint_partial_registration : exists s c,
  csp_init [1]%Z [(1, [1])]%Z = Ok s /\ cvars c = [1; 2]%Z /\
  snd (add_constraint c s) = Raise LookupError /\
  lookup (constraints (fst (add_constraint c s))) 1%Z <> lookup (constraints s) 1%Z.
Proof.
  eexists. exists (mkConstraint [1; 2]%Z (fun _ => true)).
  split; [reflexivity|]. split; [reflexivity|]. split; [reflexivity|].
  simpl. discriminate.
Qed.

Lemma add_constraint_undeclared_witness :
  let s := res_default (csp_init [1; 2]%Z [(1, [1]); (2, [1])]%Z) empty_csp in
  let c := mkConstraint [1; 3; 2]%Z (fun _ => true) in
  (wf s /\ cvars c = [1%Z] ++ 3%Z :: [2%Z] /\
   Forall (fun v => In v (variables s)) [1%Z] /\ ~ In 3%Z (variables s)) /\
  snd (add_constraint c s) = Raise LookupError /\
  variables (fst (add_constraint c s)) = variables s /\
  domains (fst (add_constraint c s)) = domains s /\
  (forall w, lookup (constraints (fst (add_constraint c s))) w =
     option_map (fun cs => cs ++ repeat c (count_occ eq_decV [1%Z] w)) (lookup (constraints s) w)).
Proof.
  intros s c.
  assert (wf s /\ cvars c = [1%Z] ++ 3%Z :: [2%Z] /\
          Forall (fun v => In v (variables s)) [1%Z] /\ ~ In 3%Z (variables s)) as Hyp.
  { split; [exact (csp_init_wf [1; 2]%Z [(1, [1]); (2, [1])]%Z s eq_refl)|]. split; [reflexivity|].
    split; [repeat constructor; simpl; tauto|simpl; lia]. }
  split; [exact Hyp|].
  destruct Hyp as (H1 & H2 & H3 & H4).
  exact (add_constraint_undeclared s c [1%Z] 3%Z [2%Z] H1 H2 H3 H4).
Defined.

Lemma consistent_contract_witness :
  (wf (queens_problem 4) /\ In 1%Z (variables (queens_problem 4)) /\
   In 1%Z (keys [(1, 2); (2, 4)]%Z)) /\
  exists cs, lookup (constraints (queens_problem 4)) 1%Z = Some cs /\
    consistent (queens_problem 4) 1%Z [(1, 2); (2, 4)]%Z =
      Ok (forallb (fun c => satisfied c [(1, 2); (2, 4)]%Z) cs) /\
    (cs = [] -> consistent (queens_problem 4) 1%Z [(1, 2); (2, 4)]%Z = Ok true).
Proof.
  assert (wf (queens_problem 4) /\ In 1%Z (variables (queens_problem 4)) /\
          In 1%Z (keys [(1, 2); (2, 4)]%Z)) as Hyp.
  { split; [exact queens4_wf|]. split; [vm_compute; left; reflexivity|simpl; left; reflexivity]. }
  split; [exact Hyp|].
  destruct Hyp as (H1 & H2 & H3). exact (consistent_contract _ _ _ H1 H2 H3).
Defined.

Lemma backtracking_search_empty_domain_witness :
  let s := res_default (csp_init [1; 2]%Z [(1, [1; 2]); (2, [])]%Z) empty_csp in
  (wf s /\ In 2%Z (variables s) /\ lookup (domains s) 2%Z = Some []) /\
  backtracking_search s [] = Ok None.
Proof.
  intros s.
  assert (wf s /\ In 2%Z (variables s) /\ lookup (domains s) 2%Z = Some []) as Hyp.
  { split; [exact (csp_init_wf [1; 2]%Z [(1, [1; 2]); (2, [])]%Z s eq_refl)|].
    split; [vm_compute; right; left; reflexivity|reflexivity]. }
  split; [exact Hyp|].
  destruct Hyp as (H1 & H2 & H3). exact (backtracking_search_empty_domain s 2%Z H1 H2 H3).
Defined.

Lemma queens_satisfied_spec_witness :
  (NoDup (keys [(1, 2); (2, 4); (3, 1); (4, 3)]%Z) /\
   (forall c, In c (keys [(1, 2); (2, 4); (3, 1); (4, 3)]%Z) -> (1 <= c <= Z.of_nat 4)%Z)) /\
  (queens_satisfied (range 1 (Z.of_nat 4 + 1)) [(1, 2); (2, 4); (3, 1); (4, 3)]%Z = true <->
   forall c1 r1 c2 r2, In (c1, r1) [(1, 2); (2, 4); (3, 1); (4, 3)]%Z ->
     In (c2, r2) [(1, 2); (2, 4); (3, 1); (4, 3)]%Z -> c1 <> c2 ->
     r1 <> r2 /\ Z.abs (c1 - c2) <> Z.abs (r1 - r2)) /\
  (length [(1, 2); (2, 4); (3, 1); (4, 3)]%Z <= 1 ->
   queens_satisfied (range 1 (Z.of_nat 4 + 1)) [(1, 2); (2, 4); (3, 1); (4, 3)]%Z = true).
Proof.
  assert (NoDup (keys [(1, 2); (2, 4); (3, 1); (4, 3)]%Z) /\
          (forall c, In c (keys [(1, 2); (2, 4); (3, 1); (4, 3)]%Z) -> (1 <= c <= Z.of_nat 4)%Z))
    as Hyp.
  { split; [simpl; repeat constructor; simpl; lia|intros c Hc; simpl in Hc; lia]. }
  split; [exact Hyp|].
  destruct Hyp as (H1 & H2). exact (queens_satisfied_spec 4 _ H1 H2).
Defined.

Lemma backtracking_search_default_idempotent_witness :
  0 < length [@nil (Z * Z)] /\
  let h1 := fst (backtracking_search_h (queens_problem 4) [[]] 0) in
  let r1 := snd (backtracking_search_h (queens_problem 4) [[]] 0) in
  let h2 := fst (backtracking_search_h (queens_problem 4) h1 0) in
  let r2 := snd (backtracking_search_h (queens_problem 4) h1 0) in
  deref h1 0 = deref [[]] 0 /\ deref_res h2 r1 = deref_res h2 r2 /\
  deref_res h2 r2 = backtracking_search (queens_problem 4) (deref [[]] 0).
Proof.
  assert (0 < length [@nil (Z * Z)]) as Hyp by (simpl; lia).
  split; [exact Hyp|].
  exact (backtracking_search_default_idempotent (queens_problem 4) [[]] 0 Hyp).
Defined.

Lemma backtracking_search_no_leak_witness :
  0 < length [@nil (Z * Z)] /\
  deref (fst (backtracking_search_h (queens_problem 4) [[]] 0)) 0 = deref [[]] 0 /\
  frame [[]] (fst (backtracking_search_h (queens_problem 4) [[]] 0)).
Proof.
  assert (0 < length [@nil (Z * Z)]) as Hyp by (simpl; lia).
  split; [exact Hyp|].
  exact (backtracking_search_no_leak (queens_problem 4) [[]] 0 Hyp).
Defined.

Lemma backtracking_search_2_last_variable_witness :
  let s := res_default (csp_init [1]%Z [(1, [1])]%Z) empty_csp in
  (length (@nil (Z * Z)) <> length (variables s) /\ length (unassigned s []) = 1) /\
  backtracking_search_2 s [] = Raise IndexError.
Proof.
  intros s.
  assert (length (@nil (Z * Z)) <> length (variables s) /\ length (unassigned s []) = 1) as Hyp
    by (split; [vm_compute; discriminate|reflexivity]).
  split; [exact Hyp|].
  destruct Hyp as (H1 & H2). exact (backtracking_search_2_last_variable s [] H1 H2).
Defined.

(** C7: the claim fails for dicts with keys outside [1..n]: with
    [columns = [1]], [satisfied] never pairs column 1 with column 2, so
    [{1: 1, 2: 1}] passes although its two queens share a row; and it does
    pair column 0 with column 1, so [{0: 1, 1: 1}] fails although no two
    columns of [1..n] attack each other. *)
Lemma queens_satisfied_out_of_range :
  ~ (forall a : list (Z * Z), NoDup (keys a) ->
       (queens_satisfied (range 1 (Z.of_nat 1 + 1)) a = true <->
        forall c1 r1 c2 r2, In (c1, r1) a -> In (c2, r2) a -> c1 <> c2 ->
          r1 <> r2 /\ Z.abs (c1 - c2) <> Z.abs (r1 - r2))) /\
  ~ (forall a : list (Z * Z), NoDup (keys a) ->
       (queens_satisfied (range 1 (Z.of_nat 1 + 1)) a = true <->
        forall c1 r1 c2 r2, In (c1, r1) a -> In (c2, r2) a -> c1 <> c2 ->
          (1 <= c1 <= Z.of_nat 1)%Z -> (1 <= c2 <= Z.of_nat 1)%Z ->
          r1 <> r2 /\ Z.abs (c1 - c2) <> Z.abs (r1 - r2))).
Proof.
  split; intros Hall.
  - assert (NoDup (keys [(1, 1); (2, 1)]%Z)) as Hnd by (simpl; repeat constructor; simpl; lia).
    destruct (proj1 (Hall _ Hnd) eq_refl 1%Z 1%Z 2%Z 1%Z) as [Hr _];
      [left; reflexivity|right; left; reflexivity|lia|].
    exact (Hr eq_refl).
  - assert (NoDup (keys [(0, 1); (1, 1)]%Z)) as Hnd by (simpl; repeat constructor; simpl; lia).
    assert (queens_satisfied (range 1 (Z.of_nat 1 + 1)) [(0, 1); (1, 1)]%Z = true) as Hs.
    { apply (Hall _ Hnd). intros c1 r1 c2 r2 H1 H2 Hne Hc1 Hc2.
      simpl in H1, H2. exfalso.
      destruct H1 as [[= <- _]|[[= <- _]|[]]]; destruct H2 as [[= <- _]|[[= <- _]|[]]]; lia. }
    discriminate Hs.
Qed.

(** * Further properties of the code *)

Section MoreDictFacts.

Context {V A : Type} `{EqDecV V}.

Lemma keys_dict_set_present (d : list (V * A)) k x :
  In k (keys d) -> keys (dict_set d k x) = keys d.
Proof.
  induction d as [|[k' y] d IH]; simpl; [tauto|].
  intros Hk. destruct (eq_decV k k') as [->|Hne]; simpl; [reflexivity|].
  f_equal. apply IH. destruct Hk as [->|Hk]; [congruence|exact Hk].
Qed.

Lemma In_dict_set (d : list (V * A)) k x p :
  In p (dict_set d k x) -> p = (k, x) \/ In p d.
Proof.
  induction d as [|[k' y] d IH]; simpl.
  - intros [<-|[]]. left. reflexivity.
  - destruct (eq_decV k k') as [->|Hne]; simpl.
    + intros [<-|Hp]; [left; reflexivity|right; right; exact Hp].
    + intros [<-|Hp]; [right; left; reflexivity|].
      destruct (IH Hp) as [->|Hp']; [left; reflexivity|right; right; exact Hp'].
Qed.

Lemma In_keys_dict_set (d : list (V * A)) k x w :
  In w (keys (dict_set d k x)) <-> In w (keys d) \/ w = k.
Proof.
  assert (forall e : list (V * A), In w (keys e) <-> lookup e w <> None) as Hk.
  { intros e. split; intros Hw.
    - rewrite lookup_None_iff. tauto.
    - destruct (In_dec eq_decV w (keys e)) as [?|Hn]; [assumption|].
      apply lookup_None_iff in Hn. contradiction. }
  rewrite !Hk. apply lookup_dict_set_defined.
Qed.

Lemma NoDup_keys_dict_set (d : list (V * A)) k x :
  NoDup (keys d) -> NoDup (keys (dict_set d k x)).
Proof.
  intros Hnd. destruct (In_dec eq_decV k (keys d)) as [Hk|Hk].
  - rewrite keys_dict_set_present by exact Hk. exact Hnd.
  - rewrite dict_set_absent, keys_app by exact Hk.
    apply NoDup_app; [exact Hnd|repeat constructor; simpl; tauto|].
    intros z Hz [<-|[]]. exact (Hk Hz).
Qed.

Lemma forallb_same_members {X} (f : X -> bool) (l1 l2 : list X) :
  (forall x, In x l1 <-> In x l2) -> forallb f l1 = forallb f l2.
Proof.
  intros Hm. destruct (forallb f l1) eqn:E1, (forallb f l2) eqn:E2; try reflexivity.
  - rewrite forallb_forall in E1. apply Bool.not_true_iff_false in E2. exfalso. apply E2.
    apply forallb_forall. intros x Hx. apply E1, Hm, Hx.
  - rewrite forallb_forall in E2. apply Bool.not_true_iff_false in E1. exfalso. apply E1.
    apply forallb_forall. intros x Hx. apply E2, Hm, Hx.
Qed.

End MoreDictFacts.

Section InitFacts.

Context {V D : Type} `{EqDecV V}.

Lemma init_loop_outcome (vars : list V) (doms : list (V * list D)) :
  forall (reg : list (V * list (@Constraint V D))),
  match init_loop vars doms reg with
  | Ok _ => forall v, In v vars -> In v (keys doms)
  | Raise e => e = LookupError /\ exists v, In v vars /\ ~ In v (keys doms)
  end.
Proof.
  induction vars as [|v vs IH]; simpl; intros reg; [tauto|].
  destruct (mem v doms) eqn:Em.
  - specialize (IH (dict_set reg v [])).
    destruct (init_loop vs doms (dict_set reg v [])) as [reg'|e].
    + intros w [<-|Hw]; [apply mem_true_iff; exact Em|exact (IH w Hw)].
    + destruct IH as [He (w & Hw & Hn)]. split; [exact He|]. exists w. tauto.
  - split; [reflexivity|]. exists v. split; [left; reflexivity|].
    rewrite <- mem_true_iff, Em. discriminate.
Qed.

Lemma init_loop_registry (vars : list V) (doms : list (V * list D)) :
  forall (reg reg' : list (V * list (@Constraint V D))),
  init_loop vars doms reg = Ok reg' ->
  NoDup (keys reg) -> (forall w cs, In (w, cs) reg -> cs = []) ->
  NoDup (keys reg') /\ (forall w, In w (keys reg') <-> In w (keys reg) \/ In w vars) /\
  (forall w cs, In (w, cs) reg' -> cs = []).
Proof.
  induction vars as [|v vs IH]; simpl; intros reg reg' Hi Hnd Hnil.
  - injection Hi as <-. split; [exact Hnd|]. split; [tauto|exact Hnil].
  - destruct (mem v doms); [|discriminate].
    destruct (IH _ _ Hi) as (Hnd' & Hk & Hnil').
    + apply NoDup_keys_dict_set. exact Hnd.
    + intros w cs Hw. apply In_dict_set in Hw as [[= _ <-]|Hw]; [reflexivity|exact (Hnil w cs Hw)].
    + split; [exact Hnd'|]. split; [|exact Hnil'].
      intros w. rewrite Hk, In_keys_dict_set. intuition congruence.
Qed.

Lemma csp_init_registry vars doms (s : @CSP V D) :
  csp_init vars doms = Ok s ->
  variables s = vars /\ domains s = doms /\ NoDup (keys (constraints s)) /\
  (forall w, In w (keys (constraints s)) <-> In w vars) /\
  (forall w cs, In (w, cs) (constraints s) -> cs = []).
Proof.
  unfold csp_init. destruct (init_loop vars doms []) as [reg|e] eqn:Ei; [|discriminate].
  intros [= <-]. simpl.
  destruct (init_loop_registry vars doms [] reg Ei (NoDup_nil _) (fun w cs (h : In _ []) => match h with end))
    as (Hnd & Hk & Hnil).
  split; [reflexivity|]. split; [reflexivity|]. split; [exact Hnd|]. split; [|exact Hnil].
  intros w. rewrite Hk. simpl. tauto.
Qed.

End InitFacts.

Section AddFacts.

Context {V D : Type} `{EqDecV V}.

Lemma add_prefix_defined (vars : list V) (r1 r2 : list (V * list (@Constraint V D))) vs :
  (forall w, lookup r1 w = None <-> lookup r2 w = None) ->
  add_prefix vars r1 vs = add_prefix vars r2 vs.
Proof.
  intros Hdef. induction vs as [|u vs IH]; simpl; [reflexivity|].
  destruct (in_list u vars); [|reflexivity].
  destruct (lookup r1 u) eqn:E1, (lookup r2 u) eqn:E2.
  - rewrite IH. reflexivity.
  - apply Hdef in E2. congruence.
  - apply Hdef in E1. congruence.
  - reflexivity.
Qed.

Lemma add_loop_char (c : @Constraint V D) vs : forall (s : @CSP V D),
  variables (fst (add_loop c vs s)) = variables s /\
  domains (fst (add_loop c vs s)) = domains s /\
  keys (constraints (fst (add_loop c vs s))) = keys (constraints s) /\
  forall w, lookup (constraints (fst (add_loop c vs s))) w =
    option_map (fun cs => cs ++ repeat c (count_occ eq_decV (add_prefix (variables s) (constraints s) vs) w))
      (lookup (constraints s) w).
Proof.
  induction vs as [|v vs IH]; simpl; intros s.
  - split; [reflexivity|]. split; [reflexivity|]. split; [reflexivity|].
    intros w. destruct (lookup (constraints s) w); simpl; [rewrite app_nil_r|]; reflexivity.
  - destruct (in_list v (variables s)) eqn:Ei.
    2:{ simpl. split; [reflexivity|]. split; [reflexivity|]. split; [reflexivity|].
        intros w. destruct (lookup (constraints s) w); simpl; [rewrite app_nil_r|]; reflexivity. }
    destruct (lookup (constraints s) v) as [cs|] eqn:El.
    2:{ simpl. split; [reflexivity|]. split; [reflexivity|]. split; [reflexivity|].
        intros w. destruct (lookup (constraints s) w); simpl; [rewrite app_nil_r|]; reflexivity. }
    set (s1 := mkCSP (variables s) (domains s) (dict_set (constraints s) v (cs ++ [c]))).
    destruct (IH s1) as (Hv & Hd & Hk & Hl). simpl in Hv, Hd, Hk.
    assert (forall w, lookup (constraints s1) w = None <-> lookup (constraints s) w = None) as Hdef.
    { intros w. simpl. destruct (eq_decV w v) as [->|Hne].
      - rewrite lookup_dict_set_same, El. split; discriminate.
      - rewrite lookup_dict_set_other by exact Hne. tauto. }
    assert (add_prefix (variables s) (dict_set (constraints s) v (cs ++ [c])) vs =
            add_prefix (variables s) (constraints s) vs) as Hp
      by (apply add_prefix_defined; exact Hdef).
    split; [exact Hv|]. split; [exact Hd|]. split.
    + rewrite Hk. apply keys_dict_set_present. apply mem_true_iff. unfold mem. rewrite El. reflexivity.
    + intros w. simpl in Hl |- *. rewrite Hl, Hp. simpl.
      destruct (eq_decV w v) as [->|Hne].
      * rewrite lookup_dict_set_same, El. simpl. destruct (eq_decV v v) as [_|]; [|congruence].
        simpl. rewrite <- app_assoc. reflexivity.
      * rewrite lookup_dict_set_other by exact Hne.
        destruct (eq_decV v w) as [->|_]; [congruence|]. reflexivity.
Qed.

(** [consistent] of csp.py in closed form. *)
Lemma consistent_char (s : @CSP V D) v a :
  consistent s v a =
  match lookup (constraints s) v with
  | None => Raise KeyError
  | Some cs =>
      match lookup a v with
      | None => Raise KeyError
      | Some _ => Ok (forallb (fun c => satisfied c a) cs)
      end
  end.
Proof.
  unfold consistent. destruct (lookup (constraints s) v) as [cs|]; [|reflexivity].
  destruct (lookup a v) eqn:Ea.
  - apply consistent_loop_ok. congruence.
  - induction cs as [|c cs IH]; simpl; [rewrite Ea; reflexivity|].
    destruct (satisfied c a); [exact IH|rewrite Ea; reflexivity].
Qed.

Lemma consistent_t_char (s : @CSP V D) v a :
  consistent_t s v a =
  match lookup (constraints s) v with
  | None => Raise KeyError
  | Some cs => Ok (forallb (fun c => satisfied c a) cs)
  end.
Proof.
  unfold consistent_t. destruct (lookup (constraints s) v) as [cs|]; [|reflexivity].
  f_equal. induction cs as [|c cs IH]; simpl; [reflexivity|].
  destruct (satisfied c a); [exact IH|reflexivity].
Qed.

(** Two registries with the same keys whose lists have the same members. *)
Lemma consistent_same_members (s1 s2 : @CSP V D) :
  (forall w, match lookup (constraints s1) w, lookup (constraints s2) w with
             | Some l1, Some l2 => forall x, In x l1 <-> In x l2
             | None, None => True
             | _, _ => False
             end) ->
  forall v a, consistent s1 v a = consistent s2 v a.
Proof.
  intros Hreg v a. rewrite !consistent_char. specialize (Hreg v).
  destruct (lookup (constraints s1) v) as [l1|], (lookup (constraints s2) v) as [l2|];
    try contradiction; [|reflexivity].
  destruct (lookup a v); [|reflexivity]. f_equal. apply forallb_same_members. exact Hreg.
Qed.

Lemma bt_same_checks (s1 s2 : @CSP V D) :
  variables s1 = variables s2 -> domains s1 = domains s2 ->
  (forall v a, consistent s1 v a = consistent s2 v a) ->
  forall n a, bt s1 n a = bt s2 n a.
Proof.
  intros Hv Hd Hc. induction n as [|n IH]; intros a; simpl; [reflexivity|].
  unfold unassigned. rewrite Hv, Hd.
  destruct (Nat.eqb _ _); [reflexivity|].
  destruct (filter _ (variables s2)) as [|first rest]; [reflexivity|].
  destruct (lookup (domains s2) first) as [dom|]; [|reflexivity].
  induction dom as [|x dom IHd]; simpl; [reflexivity|].
  rewrite Hc, IH, IHd. reflexivity.
Qed.

Lemma backtracking_search_same_checks (s1 s2 : @CSP V D) :
  variables s1 = variables s2 -> domains s1 = domains s2 ->
  (forall v a, consistent s1 v a = consistent s2 v a) ->
  forall a, backtracking_search s1 a = backtracking_search s2 a.
Proof.
  intros Hv Hd Hc a. unfold backtracking_search. rewrite (bt_same_checks s1 s2 Hv Hd Hc), Hv.
  reflexivity.
Qed.

End AddFacts.

Section MoreSearchFacts.

Context {V D : Type} `{EqDecV V}.
Variable s : @CSP V D.

Lemma sub_nil (b : @assignment V D) : sub [] b.
Proof. intros k v Hk. discriminate Hk. Qed.

Lemma search_values_found_in rec (a : assignment) first values r :
  search_values s rec a first values = Some (Ok (Some r)) ->
  exists v, In v values /\ consistent s first (dict_set a first v) = Ok true /\
            rec (dict_set a first v) = Some (Ok (Some r)).
Proof.
  induction values as [|v vs IH]; simpl; [discriminate|].
  destruct (consistent s first (dict_set a first v)) as [[|]|e] eqn:Ec.
  - destruct (rec (dict_set a first v)) as [[[r'|]|e]|] eqn:Er; try discriminate.
    + intros Hr. exists v. split; [left; reflexivity|]. split; [exact Ec|rewrite Er; exact Hr].
    + intros Hr. destruct (IH Hr) as (w & Hw & Hc & Hrw). exists w. split; [right; exact Hw|tauto].
  - intros Hr. destruct (IH Hr) as (w & Hw & Hc & Hrw). exists w. split; [right; exact Hw|tauto].
  - discriminate.
Qed.

(** A returned assignment is the starting one followed by new bindings of
    distinct declared variables to values of their domains. *)
Lemma bt_extends n : forall (a r : assignment), bt s n a = Some (Ok (Some r)) ->
  exists ext, r = a ++ ext /\ NoDup (keys ext) /\
    (forall k, In k (keys ext) -> In k (variables s) /\ ~ In k (keys a)) /\
    (forall k v, In (k, v) ext -> exists dom, lookup (domains s) k = Some dom /\ In v dom) /\
    length r = length (variables s).
Proof.
  induction n as [|n IH]; simpl; intros a r Hbt; [discriminate|].
  destruct (Nat.eqb (length a) (length (variables s))) eqn:Eq.
  - injection Hbt as <-. exists []. rewrite app_nil_r. split; [reflexivity|].
    split; [constructor|]. split; [intros k []|]. split; [intros k v []|].
    apply Nat.eqb_eq. exact Eq.
  - destruct (unassigned s a) as [|first rest] eqn:Eu; [discriminate|].
    destruct (lookup (domains s) first) as [dom|] eqn:Ed; [|discriminate].
    apply search_values_found_in in Hbt as (v & Hin & _ & Hrec).
    assert (In first (unassigned s a)) as Hu by (rewrite Eu; left; reflexivity).
    apply unassigned_In in Hu as [Hv Hna].
    rewrite (dict_set_absent a first v Hna) in Hrec.
    destruct (IH _ _ Hrec) as (ext & -> & Hnd & Hk & Hdom & Hlen).
    exists ((first, v) :: ext). split; [rewrite <- app_assoc; reflexivity|]. split.
    + simpl. constructor; [|exact Hnd]. intros Hf. destruct (Hk first Hf) as [_ Hn].
      apply Hn. rewrite keys_app. apply in_or_app. right. left. reflexivity.
    + split.
      * intros k Hk'. simpl in Hk'. destruct Hk' as [<-|Hkk]; [tauto|].
        destruct (Hk k Hkk) as [Hkv Hkn]. split; [exact Hkv|].
        intros Ha. apply Hkn. rewrite keys_app. apply in_or_app. left. exact Ha.
      * split; [|exact Hlen]. intros k w Hkw. simpl in Hkw.
        destruct Hkw as [[= <- <-]|Hkw]; [exists dom; tauto|exact (Hdom k w Hkw)].
Qed.

Lemma backtracking_search_extends (a r : assignment) :
  backtracking_search s a = Ok (Some r) ->
  exists ext, r = a ++ ext /\ NoDup (keys ext) /\
    (forall k, In k (keys ext) -> In k (variables s) /\ ~ In k (keys a)) /\
    (forall k v, In (k, v) ext -> exists dom, lookup (domains s) k = Some dom /\ In v dom) /\
    length r = length (variables s).
Proof.
  intros Hr. apply (bt_extends (S (length (unassigned s a)))).
  rewrite (bt_backtracking_search s _ a (Nat.lt_succ_diag_r _)), Hr. reflexivity.
Qed.

Lemma search_values_t_eq rec (a : assignment) first values :
  search_values_t s rec a first values = search_values s rec a first values.
Proof.
  induction values as [|v vs IH]; simpl; [reflexivity|].
  rewrite consistent_t_char, consistent_char, lookup_dict_set_same.
  destruct (lookup (constraints s) first); [|reflexivity]. simpl.
  destruct (forallb _ _); [|exact IH].
  destruct (rec (dict_set a first v)) as [[[?|]|?]|]; [reflexivity|exact IH|reflexivity|reflexivity].
Qed.

Lemma bt_t_eq n : forall (a : assignment), bt_t s n a = bt s n a.
Proof.
  induction n as [|n IH]; intros a; simpl; [reflexivity|].
  destruct (Nat.eqb _ _); [reflexivity|].
  destruct (unassigned s a) as [|first rest]; [reflexivity|].
  destruct (lookup (domains s) first) as [dom|]; [|reflexivity].
  rewrite search_values_t_eq. apply search_values_ext. intros v. apply IH.
Qed.

Lemma backtracking_search_2_unfold (a : assignment) x dom :
  length a <> length (variables s) -> nth_error (unassigned s a) 1 = Some x ->
  lookup (domains s) x = Some dom ->
  Some (backtracking_search_2 s a) =
  search_values s (fun t => Some (backtracking_search s t)) a x dom.
Proof.
  intros Hl Hn Hd. unfold backtracking_search_2.
  apply Nat.eqb_neq in Hl. rewrite Hl, Hn, Hd. clear Hd.
  induction dom as [|v vs IH]; simpl; [reflexivity|].
  destruct (consistent s x (dict_set a x v)) as [[|]|e]; [|exact IH|reflexivity].
  destruct (backtracking_search s (dict_set a x v)) as [[r|]|e]; [reflexivity|exact IH|reflexivity].
Qed.

End MoreSearchFacts.

Section QueensProblemFacts.

Local Open Scope Z_scope.

Lemma NoDup_range lo hi : NoDup (range lo hi).
Proof.
  unfold range. apply NoDup_map_NoDup_ForallPairs; [|apply seq_NoDup].
  intros i j _ _ Hij. lia.
Qed.

Lemma lookup_map_const {X} (l : list Z) (x : X) k :
  lookup (map (fun c => (c, x)) l) k = if in_list k l then Some x else None.
Proof.
  induction l as [|c l IH]; simpl; [reflexivity|].
  destruct (eq_decV k c); [reflexivity|exact IH].
Qed.

Lemma queens_csp_ok n : exists s0,
  csp_init (range 1 (Z.of_nat n + 1)) (map (fun c => (c, range 1 (Z.of_nat n + 1))) (range 1 (Z.of_nat n + 1))) = Ok s0 /\
  queens_csp n = Ok (queens_problem n) /\
  queens_problem n = fst (add_constraint (QueensConstraint (range 1 (Z.of_nat n + 1))) s0).
Proof.
  set (cols := range 1 (Z.of_nat n + 1)).
  set (doms := map (fun c => (c, cols)) cols).
  pose proof (init_loop_outcome cols doms []) as Ho.
  unfold queens_problem, queens_csp, csp_init. fold cols doms.
  destruct (init_loop cols doms []) as [reg|e].
  - eexists. split; [reflexivity|]. split; reflexivity.
  - exfalso. destruct Ho as [_ (v & Hv & Hn)]. apply Hn.
    unfold doms, keys. rewrite map_map. simpl. rewrite map_id. exact Hv.
Qed.

Lemma queens_problem_facts n :
  variables (queens_problem n) = range 1 (Z.of_nat n + 1) /\
  domains (queens_problem n) = map (fun c => (c, range 1 (Z.of_nat n + 1))) (range 1 (Z.of_nat n + 1)) /\
  wf (queens_problem n) /\
  forall w, lookup (constraints (queens_problem n)) w =
    if in_list w (range 1 (Z.of_nat n + 1))
    then Some [QueensConstraint (range 1 (Z.of_nat n + 1))] else None.
Proof.
  destruct (queens_csp_ok n) as (s0 & Hi & _ & ->).
  set (cols := range 1 (Z.of_nat n + 1)) in *.
  destruct (csp_init_registry _ _ _ Hi) as (Hv & Hd & Hnd & Hk & Hnil).
  pose proof (csp_init_wf _ _ _ Hi) as Hw.
  assert (Forall (fun v => In v (variables s0)) cols) as Hall
    by (apply Forall_forall; intros v Hv'; rewrite Hv; exact Hv').
  destruct (add_loop_prefix (QueensConstraint cols) cols s0 [] Hw Hall)
    as (s' & Heq & Hw' & Hv' & Hd' & Hl').
  rewrite app_nil_r in Heq. unfold add_constraint. simpl cvars. rewrite Heq. simpl.
  rewrite Hv', Hd', Hv, Hd. split; [reflexivity|]. split; [reflexivity|]. split; [exact Hw'|].
  intros w. rewrite Hl'. destruct (in_list w cols) eqn:Ei.
  - apply in_list_iff in Ei. apply Hk in Ei as Ek.
    destruct (lookup (constraints s0) w) as [cs|] eqn:El.
    + apply lookup_Some_In in El. rewrite (Hnil w cs El). simpl.
      rewrite (proj1 (NoDup_count_occ' eq_decV cols) (NoDup_range _ _) w Ei). reflexivity.
    + apply lookup_None_iff in El. contradiction.
  - assert (~ In w (keys (constraints s0))) as Hn.
    { rewrite Hk. intros Hin. apply in_list_iff in Hin. congruence. }
    apply lookup_None_iff in Hn. rewrite Hn. reflexivity.
Qed.

Lemma queens_registered n c :
  registered (queens_problem n) c -> c = QueensConstraint (range 1 (Z.of_nat n + 1)).
Proof.
  intros (z & cs & Hl & Hin). rewrite (proj2 (proj2 (proj2 (queens_problem_facts n)))) in Hl.
  destruct (in_list z _); [|discriminate]. injection Hl as <-. destruct Hin as [<-|[]]. reflexivity.
Qed.

Lemma queens_registered_at n z :
  registered_at (queens_problem n) (QueensConstraint (range 1 (Z.of_nat n + 1))) z <->
  In z (range 1 (Z.of_nat n + 1)).
Proof.
  unfold registered_at. rewrite (proj2 (proj2 (proj2 (queens_problem_facts n)))).
  rewrite <- in_list_iff. destruct (in_list z _).
  - split; [reflexivity|]. intros _. eexists. split; [reflexivity|left; reflexivity].
  - split; [intros (cs & Hl & _); discriminate|discriminate].
Qed.

Lemma queens_good_bound n (a : list (Z * Z)) :
  good_assignment (queens_problem n) a ->
  forall c, In c (keys a) -> 1 <= c <= Z.of_nat n.
Proof.
  intros [_ Hinc] c Hc. apply Hinc in Hc.
  rewrite (proj1 (queens_problem_facts n)), in_range in Hc. lia.
Qed.

Lemma queens_satisfied_lookup (columns : list Z) (b : list (Z * Z)) c1 r1 c2 r2 :
  queens_satisfied columns b = true -> lookup b c1 = Some r1 -> lookup b c2 = Some r2 ->
  c1 < c2 <= Z.of_nat (length columns) ->
  r1 <> r2 /\ Z.abs (c1 - c2) <> Z.abs (r1 - r2).
Proof.
  intros Hs H1 H2 Hc. unfold queens_satisfied in Hs. rewrite forallb_forall in Hs.
  specialize (Hs _ (lookup_Some_In b c1 r1 H1)). simpl in Hs.
  rewrite forallb_forall in Hs.
  assert (In c2 (range (c1 + 1) (Z.of_nat (length columns) + 1))) as Hr by (apply in_range; lia).
  specialize (Hs c2 Hr). rewrite H2 in Hs. apply queens_pair_check. exact Hs.
Qed.

Lemma queens_local n : local_to_registration (queens_problem n).
Proof.
  intros c Hreg a b Ha Hb Hab. apply queens_registered in Hreg as ->.
  set (cols := range 1 (Z.of_nat n + 1)) in *.
  assert (forall z, In z cols -> lookup a z = lookup b z) as Hab'
    by (intros z Hz; apply Hab, queens_registered_at, Hz).
  assert (forall x, good_assignment (queens_problem n) x ->
            forall c r, In (c, r) x <-> In c cols /\ lookup x c = Some r) as Hx.
  { intros x Hgx c r. pose proof (queens_good_bound n x Hgx) as Hbx. split.
    - intros Hin. split; [|exact (In_lookup x c r (proj1 Hgx) Hin)].
      apply in_range. apply (in_map fst) in Hin. specialize (Hbx c Hin). simpl in Hbx. lia.
    - intros [_ Hl]. exact (lookup_Some_In x c r Hl). }
  assert (forall x, good_assignment (queens_problem n) x ->
            forall c, In c (keys x) -> c <= Z.of_nat (length cols)) as Hbound.
  { intros x Hgx c Hc. unfold cols. rewrite length_range.
    pose proof (queens_good_bound n x Hgx c Hc). lia. }
  apply Bool.eq_iff_eq_true. simpl satisfied.
  rewrite (queens_satisfied_pairs cols a (proj1 Ha) (Hbound a Ha)).
  rewrite (queens_satisfied_pairs cols b (proj1 Hb) (Hbound b Hb)).
  split; intros Hp c1 r1 c2 r2 H1 H2 Hne; apply (Hp c1 r1 c2 r2); try exact Hne.
  - apply (Hx a Ha). apply (Hx b Hb) in H1 as [Hc1 Hl1]. rewrite Hab' by exact Hc1. tauto.
  - apply (Hx a Ha). apply (Hx b Hb) in H2 as [Hc2 Hl2]. rewrite Hab' by exact Hc2. tauto.
  - apply (Hx b Hb). apply (Hx a Ha) in H1 as [Hc1 Hl1]. rewrite <- Hab' by exact Hc1. tauto.
  - apply (Hx b Hb). apply (Hx a Ha) in H2 as [Hc2 Hl2]. rewrite <- Hab' by exact Hc2. tauto.
Qed.

Lemma queens_vacuous n : absent_vacuous (queens_problem n).
Proof.
  intros c Hreg a b Ha Hsub Hb. apply queens_registered in Hreg as ->. simpl satisfied in *.
  pose proof (queens_good_bound n a Ha) as Hba.
  apply queens_satisfied_pairs; [exact (proj1 Ha)|intros c Hc; rewrite length_range; specialize (Hba c Hc); lia|].
  intros c1 r1 c2 r2 H1 H2 Hne.
  pose proof (Hba c1 (in_map fst _ _ H1)) as B1. pose proof (Hba c2 (in_map fst _ _ H2)) as B2.
  simpl in B1, B2.
  apply (In_lookup a _ _ (proj1 Ha)), Hsub in H1. apply (In_lookup a _ _ (proj1 Ha)), Hsub in H2.
  destruct (Z.lt_total c1 c2) as [Hc|[Hc|Hc]]; [|lia|].
  - apply (queens_satisfied_lookup _ b c1 r1 c2 r2 Hb H1 H2). rewrite length_range. lia.
  - assert (r2 <> r1 /\ Z.abs (c2 - c1) <> Z.abs (r2 - r1)) as [Hr Hd]
      by (apply (queens_satisfied_lookup _ b c2 r2 c1 r1 Hb H2 H1); rewrite length_range; lia).
    split; lia.
Qed.

Lemma queens_complete_solution n sol :
  queens_placement n sol -> complete_solution (queens_problem n) sol.
Proof.
  intros (Hp & Hr & Hpair).
  destruct (queens_problem_facts n) as (Hv & Hd & _ & _).
  assert (NoDup (keys sol)) as Hnd
    by exact (Permutation_NoDup (Permutation_sym Hp) (NoDup_range _ _)).
  split.
  - intros x Hx. rewrite Hv in Hx.
    apply (Permutation_in _ (Permutation_sym Hp)) in Hx. unfold keys in Hx.
    apply in_map_iff in Hx as ([x' v] & Hx' & Hin). simpl in Hx'. subst x'.
    exists v, (range 1 (Z.of_nat n + 1)). split; [exact (In_lookup sol x v Hnd Hin)|]. split.
    + rewrite Hd, lookup_map_const.
      assert (in_list x (range 1 (Z.of_nat n + 1)) = true) as ->; [|reflexivity].
      apply in_list_iff. apply (Permutation_in _ Hp). exact (in_map fst _ _ Hin).
    + apply in_range. specialize (Hr x v Hin). lia.
  - intros c Hreg. apply queens_registered in Hreg as ->. simpl satisfied.
    apply queens_satisfied_pairs; [exact Hnd| |exact Hpair].
    intros c Hc. apply (Permutation_in _ Hp), in_range in Hc. rewrite length_range. lia.
Qed.

End QueensProblemFacts.

Section RegistryTwice.

Context {V D : Type} `{EqDecV V}.

(** The registry after [add_constraint(c1)] then [add_constraint(c2)]. *)
Lemma add_twice_lookup (s : @CSP V D) c1 c2 :
  let s12 := fst (add_constraint c2 (fst (add_constraint c1 s))) in
  variables s12 = variables s /\ domains s12 = domains s /\
  forall w, lookup (constraints s12) w =
    option_map (fun cs =>
      (cs ++ repeat c1 (count_occ eq_decV (add_prefix (variables s) (constraints s) (cvars c1)) w))
          ++ repeat c2 (count_occ eq_decV (add_prefix (variables s) (constraints s) (cvars c2)) w))
      (lookup (constraints s) w).
Proof.
  intros s12. unfold s12, add_constraint.
  destruct (add_loop_char c1 (cvars c1) s) as (V1 & D1 & _ & L1).
  destruct (add_loop_char c2 (cvars c2) (fst (add_loop c1 (cvars c1) s))) as (V2 & D2 & _ & L2).
  split; [rewrite V2, V1; reflexivity|]. split; [rewrite D2, D1; reflexivity|].
  intros w. rewrite L2, L1, V1.
  rewrite (add_prefix_defined (variables s) (constraints (fst (add_loop c1 (cvars c1) s)))
             (constraints s) (cvars c2)).
  - destruct (lookup (constraints s) w); reflexivity.
  - intros u. rewrite L1. destruct (lookup (constraints s) u); simpl; split; congruence.
Qed.

End RegistryTwice.

(** * Properties of the rest of the code *)

Section Extras.

Context {V D : Type} `{EqDecV V}.

(** X1.  [CSP(variables, domains)] succeeds exactly when every variable
    is a key of [domains]; the only exception it raises is [LookupError]. *)
Theorem csp_init_succeeds_iff (vars : list V) (doms : list (V * list D)) :
  ((exists s, csp_init vars doms = Ok s) <-> (forall v, In v vars -> In v (keys doms))) /\
  (forall e, csp_init vars doms = Raise e -> e = LookupError).
Proof.
  pose proof (init_loop_outcome vars doms []) as Ho. unfold csp_init.
  destruct (init_loop vars doms []) as [reg|e].
  - split; [|intros e' He'; discriminate He']. split; [intros _; exact Ho|].
    intros _. eexists. reflexivity.
  - destruct Ho as [He (v & Hv & Hn)]. split.
    + split; [intros [s' Hs']; discriminate Hs'|]. intros Hall. exfalso. exact (Hn (Hall v Hv)).
    + intros e' [= <-]. exact He.
Qed.

(** X2.  A problem built by [CSP(variables, domains)] keeps both lists as
    given, and its registry has each variable as a key exactly once (also
    a variable listed twice), bound to an empty list, and no other key. *)
Theorem csp_init_registry_empty (vars : list V) (doms : list (V * list D)) (s : @CSP V D) :
  csp_init vars doms = Ok s ->
  variables s = vars /\ domains s = doms /\ NoDup (keys (constraints s)) /\
  (forall w, In w (keys (constraints s)) <-> In w vars) /\
  (forall w cs, In (w, cs) (constraints s) -> cs = []).
Proof. exact (csp_init_registry vars doms s). Qed.

(** X3.  [add_constraint], whether it succeeds or raises, leaves the
    variables, the domains and the key list of the registry (so
    [len(csp.constraints)]) as they were. *)
Theorem add_constraint_keeps_keys (s : @CSP V D) c :
  variables (fst (add_constraint c s)) = variables s /\
  domains (fst (add_constraint c s)) = domains s /\
  keys (constraints (fst (add_constraint c s))) = keys (constraints s).
Proof.
  destruct (add_loop_char c (cvars c) s) as (Hv & Hd & Hk & _). tauto.
Qed.

(** X4.  On a well-formed problem, registering a constraint whose
    variables are all declared returns normally and appends the constraint
    to the list of each of its variables, once per occurrence in its
    variable list; every other list is unchanged. *)
Theorem add_constraint_declared (s : @CSP V D) c :
  wf s -> (forall v, In v (cvars c) -> In v (variables s)) ->
  snd (add_constraint c s) = Ok tt /\
  forall w, lookup (constraints (fst (add_constraint c s))) w =
    option_map (fun cs => cs ++ repeat c (count_occ eq_decV (cvars c) w)) (lookup (constraints s) w).
Proof.
  intros Hwf Hall.
  destruct (add_loop_prefix c (cvars c) s [] Hwf (proj2 (Forall_forall _ _) Hall))
    as (s' & Heq & _ & _ & _ & Hl).
  rewrite app_nil_r in Heq. unfold add_constraint. rewrite Heq. simpl.
  split; [reflexivity|exact Hl].
Qed.

(** X5.  [consistent] (csp.py) raises no exception other than [KeyError];
    it raises it when the variable has no registry entry, and also when
    the variable is not a key of the assignment, even if every constraint
    holds (its [print] reads [assignment[variable]]). *)
Theorem consistent_key_error (s : @CSP V D) v (a : assignment) :
  (forall e, consistent s v a = Raise e -> e = KeyError) /\
  (lookup (constraints s) v = None -> consistent s v a = Raise KeyError) /\
  (lookup a v = None -> consistent s v a = Raise KeyError).
Proof.
  rewrite consistent_char.
  destruct (lookup (constraints s) v); [|split; [intros e [= <-]; reflexivity|tauto]].
  destruct (lookup a v); [|split; [intros e [= <-]; reflexivity|split; [discriminate|tauto]]].
  split; [intros e He; discriminate He|]. split; discriminate.
Qed.

(** X6.  [consistent] of testCsp.py never reads [assignment[variable]]:
    when the variable is bound it returns what [consistent] of csp.py
    returns; when it is not, csp.py's raises [KeyError] while testCsp.py's
    still returns whether all registered constraints hold. *)
Theorem consistent_t_agrees (s : @CSP V D) v (a : assignment) :
  (lookup a v <> None -> consistent_t s v a = consistent s v a) /\
  (lookup a v = None -> consistent s v a = Raise KeyError /\
     consistent_t s v a = match lookup (constraints s) v with
                          | Some cs => Ok (forallb (fun c => satisfied c a) cs)
                          | None => Raise KeyError
                          end).
Proof.
  rewrite consistent_char, consistent_t_char. split.
  - intros Ha. destruct (lookup (constraints s) v); [|reflexivity].
    destruct (lookup a v); [reflexivity|contradiction].
  - intros Ha. rewrite Ha. destruct (lookup (constraints s) v); split; reflexivity.
Qed.

(** X7.  [backtracking_search] of testCsp.py (with its testCsp.py
    [consistent], called twice per value) returns what
    [backtracking_search] of csp.py returns, on every problem and every
    starting assignment. *)
Theorem backtracking_search_t_same (s : @CSP V D) (a : assignment) :
  backtracking_search_t s a = backtracking_search s a.
Proof. unfold backtracking_search_t, backtracking_search. rewrite bt_t_eq. reflexivity. Qed.

(** X8.  A returned assignment is the starting assignment, unchanged and
    in the same order, followed by new bindings of distinct declared
    variables that were not keys of it, each to a value of its domain; its
    length is the number of declared variables. *)
Theorem backtracking_search_keeps_start (s : @CSP V D) (a r : assignment) :
  backtracking_search s a = Ok (Some r) ->
  exists ext, r = a ++ ext /\ NoDup (keys ext) /\
    (forall k, In k (keys ext) -> In k (variables s) /\ ~ In k (keys a)) /\
    (forall k v, In (k, v) ext -> exists dom, lookup (domains s) k = Some dom /\ In v dom) /\
    length r = length (variables s).
Proof. exact (backtracking_search_extends s a r). Qed.

(** X9.  On a well-formed problem with pairwise distinct variables,
    [backtracking_search] from any assignment of distinct declared
    variables raises no exception. *)
Theorem backtracking_search_never_raises (s : @CSP V D) (a : assignment) :
  wf s -> NoDup (variables s) -> good_assignment s a ->
  exists o, backtracking_search s a = Ok o.
Proof.
  intros Hwf Hnd Hg.
  destruct (bt_no_raise s Hwf Hnd (S (length (unassigned s a))) a (Nat.lt_succ_diag_r _) Hg) as [o Ho].
  exists o. rewrite (bt_backtracking_search s _ a (Nat.lt_succ_diag_r _)) in Ho.
  injection Ho as Ho. exact Ho.
Qed.

(** X10.  The order in which two constraints are registered does not
    matter: [consistent] and [backtracking_search] give the same results
    after [add_constraint(c1); add_constraint(c2)] as after
    [add_constraint(c2); add_constraint(c1)] (also when a call raised). *)
Theorem add_constraint_order_irrelevant (s : @CSP V D) c1 c2 :
  (forall v a, consistent (fst (add_constraint c2 (fst (add_constraint c1 s)))) v a =
               consistent (fst (add_constraint c1 (fst (add_constraint c2 s)))) v a) /\
  (forall a, backtracking_search (fst (add_constraint c2 (fst (add_constraint c1 s)))) a =
             backtracking_search (fst (add_constraint c1 (fst (add_constraint c2 s)))) a).
Proof.
  destruct (add_twice_lookup s c1 c2) as (V12 & D12 & L12).
  destruct (add_twice_lookup s c2 c1) as (V21 & D21 & L21).
  assert (forall v a, consistent (fst (add_constraint c2 (fst (add_constraint c1 s)))) v a =
                      consistent (fst (add_constraint c1 (fst (add_constraint c2 s)))) v a) as Hc.
  { apply consistent_same_members. intros w. rewrite L12, L21.
    destruct (lookup (constraints s) w); simpl; [|exact I].
    intros x. rewrite !in_app_iff. tauto. }
  split; [exact Hc|]. apply backtracking_search_same_checks;
    [rewrite V12, V21; reflexivity|rewrite D12, D21; reflexivity|exact Hc].
Qed.


(** X12.  Soundness of [backtracking_search_2] from [{}] under the
    hypotheses of the amended C1: a returned assignment binds each
    declared variable exactly once and satisfies every registered
    constraint. *)
Theorem backtracking_search_2_sound (s : @CSP V D) (r : assignment) :
  wf s -> local_to_registration s -> backtracking_search_2 s [] = Ok (Some r) ->
  Permutation (keys r) (variables s) /\ (forall c, registered s c -> satisfied c r = true).
Proof.
  intros Hwf Hloc Hr.
  destruct (Nat.eq_dec (length (@nil (V * D))) (length (variables s))) as [Hl|Hl].
  - unfold backtracking_search_2 in Hr.
    assert (Nat.eqb (length (@nil (V * D))) (length (variables s)) = true) as E
      by (apply Nat.eqb_eq; exact Hl).
    rewrite E in Hr. injection Hr as <-. simpl in Hl.
    destruct (variables s) as [|y l] eqn:Ev; [|discriminate Hl].
    split; [constructor|]. intros c (z & cs & Hz & _).
    apply (proj2 (proj2 Hwf)) in Hz. rewrite Ev in Hz. destruct Hz.
  - assert (Nat.eqb (length (@nil (V * D))) (length (variables s)) = false) as E
      by (apply Nat.eqb_neq; exact Hl).
    destruct (nth_error (unassigned s []) 1) as [x|] eqn:En;
      [|unfold backtracking_search_2 in Hr; rewrite E, En in Hr; discriminate Hr].
    destruct (lookup (domains s) x) as [dom|] eqn:Ed;
      [|unfold backtracking_search_2 in Hr; rewrite E, En, Ed in Hr; discriminate Hr].
    pose proof (backtracking_search_2_unfold s [] x dom Hl En Ed) as U.
    rewrite Hr in U. symmetry in U.
    apply search_values_found_in in U as (v & _ & Hc & Hrec). injection Hrec as Hrec.
    assert (In x (unassigned s [])) as Hu by exact (nth_error_In _ _ En).
    destruct (good_step s [] x v (good_nil s) Hu) as [Heq Hg'].
    simpl in Heq, Hc, Hrec, Hg'.
    assert (sound_upto_in s [(x, v)]) as Hs'.
    { apply (sound_upto_step s [] x v Hloc (good_nil s) Hg' (sound_upto_nil s)); [intros []|exact Hc]. }
    pose proof (bt_backtracking_search s (S (length (unassigned s [(x, v)]))) [(x, v)]
                  (Nat.lt_succ_diag_r _)) as Ebt.
    rewrite Hrec in Ebt.
    destruct (bt_sound s Hloc _ [(x, v)] r Hg' Hs' Ebt) as (Hg & Hsr & Hlen).
    pose proof (good_full s r Hg Hlen) as Hp. split; [exact Hp|].
    intros c Hreg. apply Hsr; [exact Hreg|]. intros z (cs & Hzl & _).
    apply (Permutation_in _ (Permutation_sym Hp)). exact (proj2 (proj2 Hwf) z cs Hzl).
Qed.

(** X13.  Completeness of [backtracking_search_2] from [{}] under the
    hypotheses of the amended C2, for problems with at least two
    variables: if a complete solution exists, it returns an assignment. *)
Theorem backtracking_search_2_complete (s : @CSP V D) (sol : assignment) :
  wf s -> NoDup (variables s) -> 2 <= length (variables s) -> absent_vacuous s ->
  complete_solution s sol ->
  exists r, backtracking_search_2 s [] = Ok (Some r).
Proof.
  intros Hwf Hnd Hlen Hvac Hsol.
  assert (unassigned s [] = variables s) as Eu.
  { unfold unassigned. generalize (variables s) as l. intros l.
    induction l as [|y l IH]; simpl; [reflexivity|f_equal; exact IH]. }
  assert (exists x0 x l, variables s = x0 :: x :: l) as (x0 & x & l & Ev)
    by (destruct (variables s) as [|x0 [|x l]]; simpl in Hlen; [lia|lia|eauto]).
  assert (nth_error (unassigned s []) 1 = Some x) as En by (rewrite Eu, Ev; reflexivity).
  assert (In x (variables s)) as Hx by (rewrite Ev; right; left; reflexivity).
  assert (In x (unassigned s [])) as Hu by (rewrite Eu; exact Hx).
  destruct (proj1 Hsol x Hx) as (v0 & dom & Hs0 & Hd & Hin).
  assert (length (@nil (V * D)) <> length (variables s)) as Hl by (rewrite Ev; simpl; lia).
  pose proof (backtracking_search_2_unfold s [] x dom Hl En Hd) as U.
  assert (forall v, length (unassigned s (dict_set [] x v)) < S (length (unassigned s (dict_set [] x v))))
    as Hlt by (intros v; lia).
  assert (exists r, search_values s (fun t => Some (backtracking_search s t)) [] x dom =
                    Some (Ok (Some r))) as [r Hr].
  { apply (search_values_find s _ [] x dom v0 Hin).
    - intros v. exact (consistent_defined s Hwf [] x v Hx).
    - intros v. destruct (bt_no_raise s Hwf Hnd _ (dict_set [] x v) (Hlt v)
                            (proj2 (good_step s [] x v (good_nil s) Hu))) as [o Ho].
      exists o. rewrite (bt_backtracking_search s _ _ (Hlt v)) in Ho. exact Ho.
    - destruct (proj1 (proj2 Hwf) x Hx) as [cs Hcs].
      rewrite (consistent_ok s x cs _ Hcs) by (rewrite lookup_dict_set_same; discriminate).
      f_equal. apply forallb_forall. intros c Hc.
      apply (Hvac c (ex_intro _ x (ex_intro _ cs (conj Hcs Hc))) _ sol
               (proj2 (good_step s [] x v0 (good_nil s) Hu))).
      + intros k w. simpl. destruct (eq_decV k x) as [->|]; [intros [= <-]; exact Hs0|discriminate].
      + apply (proj2 Hsol). exists x, cs. tauto.
    - destruct (bt_complete s Hwf Hnd Hvac sol Hsol _ (dict_set [] x v0) (Hlt v0)
                  (proj2 (good_step s [] x v0 (good_nil s) Hu))) as [r Hr].
      + intros k w. simpl. destruct (eq_decV k x) as [->|]; [intros [= <-]; exact Hs0|discriminate].
      + exists r. rewrite (bt_backtracking_search s _ _ (Hlt v0)) in Hr. exact Hr. }
  exists r. rewrite Hr in U. injection U as U. exact U.
Qed.

(** X14.  Problems built by [CSP(...)] followed by [add_constraint]
    calls (raising or not) stay well formed: every variable has a domain
    and a registry entry, and the registry has no other keys. *)
Theorem reachable_problem_wf (s : @CSP V D) : reachable s -> wf s.
Proof. exact (reachable_wf s). Qed.

End Extras.

(** X15.  The n-queens problem of queens.py: whatever [solve_queens n]
    returns is a placement of [n] non-attacking queens, one per column
    [1..n], with rows in [1..n]. *)
Theorem solve_queens_sound (n : nat) (r : list (Z * Z)) :
  solve_queens n = Ok (Some r) -> queens_placement n r.
Proof.
  intros Hr. destruct (queens_csp_ok n) as (s0 & _ & Hq & _).
  unfold solve_queens in Hr. rewrite Hq in Hr.
  destruct (queens_problem_facts n) as (Hv & Hd & Hwf & _).
  pose proof (bt_backtracking_search (queens_problem n) (S (length (unassigned (queens_problem n) [])))
                [] (Nat.lt_succ_diag_r _)) as E.
  rewrite Hr in E.
  destruct (bt_sound (queens_problem n) (queens_local n) _ [] r (good_nil _) (sound_upto_nil _) E)
    as (Hg & Hs & Hlen).
  pose proof (good_full (queens_problem n) r Hg Hlen) as Hp. rewrite Hv in Hp.
  destruct (backtracking_search_extends (queens_problem n) [] r Hr) as (ext & Hext & _ & _ & Hdom & _).
  simpl in Hext. subst ext.
  split; [exact Hp|]. split.
  - intros c row Hin. destruct (Hdom c row Hin) as (dom & Hl & Hrow).
    rewrite Hd, lookup_map_const in Hl. destruct (in_list c _); [|discriminate].
    injection Hl as <-. apply in_range in Hrow. lia.
  - assert (forall c, In c (keys r) -> In c (range 1 (Z.of_nat n + 1))) as Hkr
      by (intros c Hc; exact (Permutation_in _ Hp Hc)).
    intros c1 r1 c2 r2 H1 H2 Hne.
    assert (queens_satisfied (range 1 (Z.of_nat n + 1)) r = true) as Hsat.
    { apply (Hs (QueensConstraint (range 1 (Z.of_nat n + 1)))).
      - exists c1. apply queens_registered_at. exact (Hkr c1 (in_map fst _ _ H1)).
      - intros z Hz. apply queens_registered_at in Hz.
        exact (Permutation_in _ (Permutation_sym Hp) Hz). }
    assert (forall c, In c (keys r) -> (c <= Z.of_nat (length (range 1 (Z.of_nat n + 1))))%Z) as Hb
      by (intros c Hc; apply Hkr, in_range in Hc; rewrite length_range; lia).
    exact (proj1 (queens_satisfied_pairs _ r (proj1 Hg) Hb) Hsat c1 r1 c2 r2 H1 H2 Hne).
Qed.

(** X16.  [solve_queens n] never raises, and it returns [None] only when
    no placement of [n] non-attacking queens exists. *)
Theorem solve_queens_complete (n : nat) :
  exists o, solve_queens n = Ok o /\ (o = None -> ~ exists sol, queens_placement n sol).
Proof.
  destruct (queens_csp_ok n) as (s0 & _ & Hq & _).
  destruct (queens_problem_facts n) as (Hv & _ & Hwf & _).
  assert (NoDup (variables (queens_problem n))) as Hnd by (rewrite Hv; apply NoDup_range).
  pose proof (Nat.lt_succ_diag_r (length (unassigned (queens_problem n) []))) as Hlt.
  destruct (bt_no_raise (queens_problem n) Hwf Hnd _ [] Hlt (good_nil _)) as [o Ho].
  rewrite (bt_backtracking_search _ _ [] Hlt) in Ho. injection Ho as Ho.
  exists o. unfold solve_queens. rewrite Hq. split; [exact Ho|].
  intros -> (sol & Hsol).
  destruct (bt_complete (queens_problem n) Hwf Hnd (queens_vacuous n) sol
              (queens_complete_solution n sol Hsol) _ [] Hlt (good_nil _) (sub_nil sol)) as [r Hr].
  rewrite (bt_backtracking_search _ _ [] Hlt), Ho in Hr. discriminate Hr.
Qed.

Section ClaimC1.

Context {V D : Type} `{EqDecV V}.

(** C1 (amended).  On a well-formed problem, if [backtracking_search]
    from [{}] returns an assignment, its keys are a permutation of the
    declared variables (each bound exactly once), whatever the
    constraints read; and if every registered constraint reads, on dicts
    over declared variables, only the bindings of the variables it is
    registered under, every registered constraint is satisfied on it. *)
Theorem backtracking_search_sound (s : @CSP V D) (r : assignment) :
  wf s -> backtracking_search s [] = Ok (Some r) ->
  Permutation (keys r) (variables s) /\
  (local_to_registration s -> forall c, registered s c -> satisfied c r = true).
Proof.
  intros Hwf Hr.
  destruct (backtracking_search_extends s [] r Hr) as (ext & Hext & Hnd & Hk & _ & Hlen).
  simpl in Hext. subst ext.
  assert (good_assignment s r) as Hg.
  { split; [exact Hnd|]. intros z Hz. exact (proj1 (Hk z Hz)). }
  pose proof (good_full s r Hg Hlen) as Hp. split; [exact Hp|].
  intros Hloc.
  pose proof (bt_backtracking_search s (S (length (unassigned s []))) [] (Nat.lt_succ_diag_r _)) as E.
  rewrite Hr in E.
  destruct (bt_sound s Hloc _ [] r (good_nil s) (sound_upto_nil s) E) as (_ & Hs & _).
  intros c Hreg. apply Hs; [exact Hreg|]. intros z (cs & Hl & _).
  apply (Permutation_in _ (Permutation_sym Hp)). exact (proj2 (proj2 Hwf) z cs Hl).
Qed.

End ClaimC1.

Lemma backtracking_search_sound_witness :
  (wf neq_problem /\ backtracking_search neq_problem [] = Ok (Some [(1, 1); (2, 2)]%Z)) /\
  Permutation (keys [(1, 1); (2, 2)]%Z) (variables neq_problem) /\
  (local_to_registration neq_problem ->
   forall c, registered neq_problem c -> satisfied c [(1, 1); (2, 2)]%Z = true).
Proof.
  assert (wf neq_problem /\ backtracking_search neq_problem [] = Ok (Some [(1, 1); (2, 2)]%Z)) as Hyp
    by (split; [exact neq_problem_wf|reflexivity]).
  split; [exact Hyp|].
  destruct Hyp as (Hw & Hr). exact (backtracking_search_sound neq_problem _ Hw Hr).
Defined.

Lemma csp_init_registry_empty_witness :
  let vars := [1; 2; 1]%Z in
  let doms := [(1, [1; 2]); (2, [1])]%Z in
  let s := res_default (csp_init vars doms) empty_csp in
  csp_init vars doms = Ok s /\
  (variables s = vars /\ domains s = doms /\ NoDup (keys (constraints s)) /\
   (forall w, In w (keys (constraints s)) <-> In w vars) /\
   (forall w cs, In (w, cs) (constraints s) -> cs = [])).
Proof.
  intros vars doms s.
  assert (csp_init vars doms = Ok s) as Hyp by reflexivity.
  split; [exact Hyp|]. exact (csp_init_registry_empty vars doms s Hyp).
Defined.

Lemma add_constraint_declared_witness :
  let s := res_default (csp_init [1; 2]%Z [(1, [1; 2]); (2, [1; 2])]%Z) empty_csp in
  let c := neq_constraint 1 2 in
  (wf s /\ (forall v, In v (cvars c) -> In v (variables s))) /\
  snd (add_constraint c s) = Ok tt /\
  forall w, lookup (constraints (fst (add_constraint c s))) w =
    option_map (fun cs => cs ++ repeat c (count_occ eq_decV (cvars c) w)) (lookup (constraints s) w).
Proof.
  intros s c.
  assert (wf s /\ (forall v, In v (cvars c) -> In v (variables s))) as Hyp.
  { split; [exact (csp_init_wf [1; 2]%Z [(1, [1; 2]); (2, [1; 2])]%Z s eq_refl)|].
    intros v Hv. exact Hv. }
  split; [exact Hyp|].
  destruct Hyp as (H1 & H2). exact (add_constraint_declared s c H1 H2).
Defined.

Lemma backtracking_search_keeps_start_witness :
  let a := [(2, 1)]%Z in
  let r := [(2, 1); (1, 2)]%Z in
  backtracking_search neq_problem a = Ok (Some r) /\
  exists ext, r = a ++ ext /\ NoDup (keys ext) /\
    (forall k, In k (keys ext) -> In k (variables neq_problem) /\ ~ In k (keys a)) /\
    (forall k v, In (k, v) ext -> exists dom, lookup (domains neq_problem) k = Some dom /\ In v dom) /\
    length r = length (variables neq_problem).
Proof.
  intros a r.
  assert (backtracking_search neq_problem a = Ok (Some r)) as Hyp by reflexivity.
  split; [exact Hyp|]. exact (backtracking_search_keeps_start neq_problem a r Hyp).
Defined.

Lemma backtracking_search_never_raises_witness :
  (wf neq_problem /\ NoDup (variables neq_problem) /\ good_assignment neq_problem [(2, 1)]%Z) /\
  exists o, backtracking_search neq_problem [(2, 1)]%Z = Ok o.
Proof.
  assert (wf neq_problem /\ NoDup (variables neq_problem) /\
          good_assignment neq_problem [(2, 1)]%Z) as Hyp.
  { split; [exact neq_problem_wf|]. split; [simpl; repeat constructor; simpl; lia|].
    split; [simpl; repeat constructor; simpl; tauto|].
    intros z Hz. simpl in Hz |- *. tauto. }
  split; [exact Hyp|].
  destruct Hyp as (H1 & H2 & H3). exact (backtracking_search_never_raises neq_problem _ H1 H2 H3).
Defined.

Lemma backtracking_search_2_sound_witness :
  (wf neq_problem /\ local_to_registration neq_problem /\
   backtracking_search_2 neq_problem [] = Ok (Some [(2, 1); (1, 2)]%Z)) /\
  Permutation (keys [(2, 1); (1, 2)]%Z) (variables neq_problem) /\
  (forall c, registered neq_problem c -> satisfied c [(2, 1); (1, 2)]%Z = true).
Proof.
  assert (wf neq_problem /\ local_to_registration neq_problem /\
          backtracking_search_2 neq_problem [] = Ok (Some [(2, 1); (1, 2)]%Z)) as Hyp
    by (split; [exact neq_problem_wf|split; [exact neq_problem_local|reflexivity]]).
  split; [exact Hyp|].
  destruct Hyp as (H1 & H2 & H3). exact (backtracking_search_2_sound neq_problem _ H1 H2 H3).
Defined.

Lemma backtracking_search_2_complete_witness :
  (wf neq_problem /\ NoDup (variables neq_problem) /\ 2 <= length (variables neq_problem) /\
   absent_vacuous neq_problem /\ complete_solution neq_problem [(1, 1); (2, 2)]%Z) /\
  exists r, backtracking_search_2 neq_problem [] = Ok (Some r).
Proof.
  assert (wf neq_problem /\ NoDup (variables neq_problem) /\ 2 <= length (variables neq_problem) /\
          absent_vacuous neq_problem /\ complete_solution neq_problem [(1, 1); (2, 2)]%Z) as Hyp.
  { split; [exact neq_problem_wf|]. split; [simpl; repeat constructor; simpl; lia|].
    split; [simpl; lia|]. split; [exact neq_problem_vacuous|]. split.
    - intros x Hx. simpl in Hx. destruct Hx as [<-|[<-|[]]]; do 2 eexists;
        (split; [reflexivity|split; [reflexivity|simpl; tauto]]).
    - intros c Hreg. apply neq_problem_registered in Hreg as ->. reflexivity. }
  split; [exact Hyp|].
  destruct Hyp as (H1 & H2 & H3 & H4 & H5).
  exact (backtracking_search_2_complete neq_problem _ H1 H2 H3 H4 H5).
Defined.

Lemma reachable_problem_wf_witness : reachable neq_problem /\ wf neq_problem.
Proof.
  assert (reachable neq_problem) as Hyp.
  { apply reach_add. apply (reach_init [1; 2]%Z [(1, [1; 2]); (2, [1; 2])]%Z). reflexivity. }
  split; [exact Hyp|]. exact (reachable_problem_wf neq_problem Hyp).
Defined.

Lemma solve_queens_sound_witness :
  solve_queens 4 = Ok (Some [(1, 2); (2, 4); (3, 1); (4, 3)]%Z) /\
  queens_placement 4 [(1, 2); (2, 4); (3, 1); (4, 3)]%Z.
Proof.
  assert (solve_queens 4 = Ok (Some [(1, 2); (2, 4); (3, 1); (4, 3)]%Z)) as Hyp by (vm_compute; reflexivity).
  split; [exact Hyp|]. exact (solve_queens_sound 4 _ Hyp).
Defined.
